(** * TiledArray: lazy array evaluation, tile-operation wrappers,
      reduction tasks and blocked vector kernels

    Shallow embedding of
      - [src/TiledArray/dist_eval/array_eval.h]  (LazyArrayTile, ArrayEvalImpl)
      - [src/TiledArray/tile_op/unary_wrapper.h] (UnaryWrapper; meta.h: invoke)
      - [tests/reduce_task.cpp]                  (ReduceOp and the reduce tests)
      - [vector_op.h] ([src/unnamed/part_001])   (VectorOpUnwind, binary_vector_op)
    followed by the properties stated about them.  Part I holds the
    definitions, Part II the theorems. *)

From stdpp Require Import base option list numbers.
From Stdlib Require Import ZArith Lia.

Local Open Scope Z_scope.

(** * Part I: definitions *)

(** ** Machine integers *)

(** [std::size_t] on the 64-bit targets the library is built for: a value
    in [0, 2^64), arithmetic modulo [2^64]. *)
Definition size_type : Type := Z.
Definition size_modulus : Z := 2 ^ 64.
Definition size_wrap (z : Z) : size_type := z mod size_modulus.

(** [int]: 32-bit two's complement, results reduced into
    [-2^31, 2^31). *)
Definition int_wrap (z : Z) : Z := (z + 2 ^ 31) mod 2 ^ 32 - 2 ^ 31.

(** ** The runtime's asynchronous handle

    [madness::Future<T>]: [probe] is the non-blocking readiness test;
    [fut_value] is the value the handle holds once it is resolved (for a
    handle that is not resolved yet, the value that will be delivered). *)
Record Future (T : Type) : Type := mkFuture {
  probe : bool;
  fut_value : T
}.
Arguments mkFuture {T} _ _.
Arguments probe {T} _.
Arguments fut_value {T} _.

(** Blocking retrieval ([Future::get], and the implicit conversion of a
    future to its value).  [None] stands for a call that would block the
    calling task, because the handle is not resolved. *)
Definition future_get {T} (f : Future T) : option T :=
  if probe f then Some (fut_value f) else None.

(** Task attributes of the runtime; only the priority matters here. *)
Inductive TaskAttributes : Type := normal_priority | hipri.

(** ** Assertions *)

(** The two ways a call can end. *)
Inductive outcome (A : Type) : Type :=
| Completed (a : A)
| AssertionFailure.
Arguments Completed {A} _.
Arguments AssertionFailure {A}.

(** Modelled from the spec: the [TA_ASSERT] macro ([error.h] is not among
    the sources).  The specification requires the programming-error
    conditions to "fail loudly (assertion-style) rather than be silently
    tolerated", and the unit tests are compiled with [TA_EXCEPTION_ERROR=1]:
    a failed assertion does not return to its caller. *)
Definition TA_ASSERT (cond : bool) : outcome unit :=
  if cond then Completed tt else AssertionFailure.

(** ** Interfaces the headers are written against *)

(** The tile operation of [array_eval.h]:
    [result_type op_type::operator()(const tile_type&, bool consume)]. *)
Class TileOperation (op_type tile_type eval_type : Type) : Type :=
  op_apply : op_type -> tile_type -> bool -> eval_type.

(** What the headers use of [Permutation] ([permutation.h] is not among
    the sources): [dim()], the conversion to [bool], unary minus (the
    inverse) and [perm ^ index] (the permutation applied to a multi-index). *)
Class PermutationOps (Permutation index : Type) : Type := {
  perm_dim : Permutation -> Z;
  perm_bool : Permutation -> bool;
  perm_inv : Permutation -> Permutation;
  perm_apply : Permutation -> index -> index
}.

(** ** array_eval.h *)

Module ArrayEval.
Section ArrayEval.

Context {op_type tile_type eval_type Permutation index : Type}.
Context `{!TileOperation op_type tile_type eval_type}.
Context `{!PermutationOps Permutation index}.

(** *** LazyArrayTile *)

(** [std::shared_ptr<op_type>]: [None] is the null pointer of a
    default-constructed tile. *)
Definition shared_ptr (A : Type) : Type := option A.

Record LazyArrayTile : Type := mkLazyArrayTile {
  tile_ : tile_type;               (* the input tile *)
  op_ : shared_ptr op_type;        (* the operation applied to argument tiles *)
  consume_ : bool                  (* if true, tile_ is consumable *)
}.

(** The applications of the tile operation performed so far, each with the
    tile and the consume flag it was given. *)
Definition op_log : Type := list (tile_type * bool).

(** [operator eval_type() const { return ( *op_)(tile_, consume_); }]
    Every call applies the operation; [None] is the dereference of the null
    operator pointer of a default-constructed tile. *)
Definition to_eval_type (t : LazyArrayTile) (log : op_log)
  : option (eval_type * op_log) :=
  o ← op_ t;
  Some (op_apply o (tile_ t) (consume_ t), log ++ [(tile_ t, consume_ t)]).

(** The conversion operator called [k] times on one tile. *)
Fixpoint to_eval_type_times (k : nat) (t : LazyArrayTile) (log : op_log)
  : option (list eval_type * op_log) :=
  match k with
  | O => Some ([], log)
  | S k' =>
      '(r, log') ← to_eval_type t log;
      '(rs, log'') ← to_eval_type_times k' t log';
      Some (r :: rs, log'')
  end.

(** [template <typename Archive> void serialize(const Archive& ar)
     { TA_ASSERT(false); }] *)
Definition serialize {Archive : Type} (t : LazyArrayTile) (ar : Archive)
  : outcome unit :=
  TA_ASSERT false.

(** *** The source array and the evaluator *)

(** What [ArrayEvalImpl] uses of its [array_type]: the ownership test, the
    tile lookup (an asynchronous handle, possibly a remote fetch), and
    [range().ord]. *)
Record array_type : Type := mkArray {
  is_local : size_type -> bool;
  find : size_type -> Future tile_type;
  array_ord : index -> size_type
}.

Record ArrayEvalImpl : Type := mkArrayEvalImpl {
  array_ : array_type;                 (* the array that will be evaluated *)
  impl_op_ : op_type;                  (* the tile operation, op_(new op_type(op)) *)
  perm : Permutation;                  (* DistEvalImpl_::perm() *)
  pmap_local : list size_type;         (* TensorImpl_::pmap(): begin() .. end() *)
  is_zero : size_type -> bool;         (* TensorImpl_::is_zero *)
  range_idx : size_type -> index       (* TensorImpl_::range().idx *)
}.

(** A task submitted with
    [taskq.add(self, &ArrayEvalImpl_::set_tile, i, tile, consume, attr)]. *)
Record set_tile_task : Type := mkTask {
  task_index : size_type;
  task_tile : Future tile_type;
  task_consume : bool;
  task_attr : TaskAttributes
}.

(** The state the kernel acts on: the evaluator's tile store, as the
    sequence of [DistEvalImpl_::set_tile] insertions, and the world's task
    queue. *)
Record world : Type := mkWorld {
  tiles : list (size_type * LazyArrayTile);
  taskq : list set_tile_task
}.

Definition empty_world : world := mkWorld [] [].

(** [DistEvalImpl_::set_tile(i, value)] *)
Definition dist_set_tile (w : world) (i : size_type) (v : LazyArrayTile) : world :=
  mkWorld (tiles w ++ [(i, v)]) (taskq w).

(** [taskq.add(...)] *)
Definition taskq_add (w : world) (t : set_tile_task) : world :=
  mkWorld (tiles w) (taskq w ++ [t]).

(** [void set_tile(const size_type i, const tile& tile, const bool consume)] *)
Definition set_tile (self : ArrayEvalImpl) (w : world) (i : size_type)
    (tile : tile_type) (consume : bool) : world :=
  dist_set_tile w i (mkLazyArrayTile tile (Some (impl_op_ self)) consume).

(** [get_array_index(const Permutation& inv_perm, const size_type i)] *)
Definition get_array_index (self : ArrayEvalImpl) (inv_perm : Permutation)
    (i : size_type) : size_type :=
  array_ord (array_ self) (perm_apply inv_perm (range_idx self i)).

(** [get_array_index(const NoPermutation, const size_type i)] *)
Definition get_array_index_noperm (i : size_type) : size_type := i.

(** The body of the loop of [eval_kernel] for one target ordinal [i];
    [index_of] is the overload of [get_array_index] selected by [Perm]. *)
Definition eval_kernel_body (self : ArrayEvalImpl)
    (index_of : size_type -> size_type)
    (st : world * size_type) (i : size_type) : option (world * size_type) :=
  let '(w, task_count) := st in
  if negb (is_zero self i) then
    let array_index := index_of i in
    let consumable_tile := negb (is_local (array_ self) array_index) in
    let tile := find (array_ self) array_index in
    w' ← (if probe tile then
            (* the tile is ready: the future converts to its value *)
            t ← future_get tile;
            Some (dist_set_tile w i
                    (mkLazyArrayTile t (Some (impl_op_ self)) consumable_tile))
          else
            Some (taskq_add w (mkTask i tile consumable_tile hipri)));
    Some (w', size_wrap (task_count + 1))
  else Some st.

Fixpoint eval_kernel_loop (self : ArrayEvalImpl)
    (index_of : size_type -> size_type)
    (its : list size_type) (st : world * size_type)
  : option (world * size_type) :=
  match its with
  | [] => Some st
  | i :: rest =>
      st' ← eval_kernel_body self index_of st i;
      eval_kernel_loop self index_of rest st'
  end.

(** [eval_kernel(self, inv_perm)]: the loop runs over the local ordinals of
    the target process map, with [task_count] starting at [0ul]. *)
Definition eval_kernel (self : ArrayEvalImpl)
    (index_of : size_type -> size_type) (w : world)
  : option (world * size_type) :=
  eval_kernel_loop self index_of (pmap_local self) (w, 0).

(** [eval_tiles(pimpl)]: [perm().dim() > 1 ? eval_kernel(self, -perm())
                                           : eval_kernel(self, NoPermutation())]
    [self] is [pimpl] cast to this class; the function first asserts
    [this == pimpl.get()], which holds here, [self] standing for both. *)
Definition eval_tiles (self : ArrayEvalImpl) (w : world)
  : option (world * size_type) :=
  if 1 <? perm_dim (perm self) then
    eval_kernel self (get_array_index self (perm_inv (perm self))) w
  else
    eval_kernel self get_array_index_noperm w.

(** Running a queued task once its handle is resolved: the runtime calls
    [set_tile(i, tile, consume)] with the delivered tile. *)
Definition run_task (self : ArrayEvalImpl) (w : world) (t : set_tile_task) : world :=
  set_tile self w (task_index t) (fut_value (task_tile t)) (task_consume t).

(** All queued tasks run, in submission order. *)
Definition run_tasks (self : ArrayEvalImpl) (w : world) : world :=
  foldl (run_task self) (mkWorld (tiles w) []) (taskq w).

(** The ordinals among [its] that are not structurally zero, and those
    the kernel creates work for: local to the target process map and not
    structurally zero, in iteration order. *)
Definition nonzero_of (self : ArrayEvalImpl) (its : list size_type)
  : list size_type :=
  filter (λ i, is_zero self i = false) its.

Definition nonzero_local (self : ArrayEvalImpl) : list size_type :=
  nonzero_of self (pmap_local self).

(** The lazy tile built for target ordinal [i] from the source tile at
    ordinal [index_of i], and the task submitted for it when the handle is
    not resolved yet. *)
Definition source_tile (self : ArrayEvalImpl)
    (index_of : size_type -> size_type) (i : size_type) : LazyArrayTile :=
  mkLazyArrayTile (fut_value (find (array_ self) (index_of i)))
                  (Some (impl_op_ self))
                  (negb (is_local (array_ self) (index_of i))).

Definition source_task (self : ArrayEvalImpl)
    (index_of : size_type -> size_type) (i : size_type) : set_tile_task :=
  mkTask i (find (array_ self) (index_of i))
         (negb (is_local (array_ self) (index_of i))) hipri.

(** The insertions and the submissions one pass over [its] makes. *)
Definition ready_tiles (self : ArrayEvalImpl)
    (index_of : size_type -> size_type) (its : list size_type)
  : list (size_type * LazyArrayTile) :=
  (λ i, (i, source_tile self index_of i)) <$>
    filter (λ i, probe (find (array_ self) (index_of i)) = true)
           (nonzero_of self its).

Definition deferred_tasks (self : ArrayEvalImpl)
    (index_of : size_type -> size_type) (its : list size_type)
  : list set_tile_task :=
  source_task self index_of <$>
    filter (λ i, probe (find (array_ self) (index_of i)) = false)
           (nonzero_of self its).

(** The index mapping [eval_tiles] selects: the overload taking the
    inverse permutation when [perm().dim() > 1], the [NoPermutation] one
    otherwise. *)
Definition source_ordinal (self : ArrayEvalImpl) : size_type -> size_type :=
  if 1 <? perm_dim (perm self)
  then get_array_index self (perm_inv (perm self))
  else get_array_index_noperm.

(** What was recorded for target ordinal [i]: the tiles inserted for it
    and the tasks waiting for its source tile. *)
Definition inserted_for (w : world) (i : size_type) : list LazyArrayTile :=
  (filter (λ e, e.1 = i) (tiles w)).*2.

Definition queued_for (w : world) (i : size_type) : list set_tile_task :=
  filter (λ t, task_index t = i) (taskq w).

End ArrayEval.
End ArrayEval.

(** ** A concrete evaluator

    A 3x2 source array of integer tiles, evaluated transposed (target
    range 2x3) with a scaling operation.  Permutations are image lists,
    multi-indices are coordinate lists. *)

Module Example.
Import ArrayEval.

(** Position of [k] in the image list [p]. *)
Fixpoint position (k : nat) (p : list nat) : nat :=
  match p with
  | [] => O
  | x :: rest => if decide (x = k) then O else S (position k rest)
  end.

Definition inverse (p : list nat) : list nat :=
  (λ k, position k p) <$> seq 0 (length p).

(** [(p ^ idx)[p[i]] = idx[i]] *)
Definition permute (p : list nat) (idx : list Z) : list Z :=
  (λ k, idx !!! position k p) <$> seq 0 (length p).

#[global] Instance list_permutation : PermutationOps (list nat) (list Z) := {|
  perm_dim p := Z.of_nat (length p);
  perm_bool p := negb (bool_decide (p = []));
  perm_inv := inverse;
  perm_apply := permute
|}.

(** The operation scales a tile by a factor; it does not look at the
    consume flag. *)
#[global] Instance scale_operation : TileOperation Z Z Z :=
  λ factor tile _, factor * tile.

(** The source array: ordinals 0..2 are owned locally, the others are
    remote; a local tile is available at once, a remote one is pending.
    Tile [j] holds the value [10 + j]; extents are 3x2, row-major. *)
Definition source : @array_type Z (list Z) :=
  mkArray (λ j, j <? 3)
          (λ j, mkFuture (j <? 3) (10 + j))
          (λ idx, (idx !!! 0%nat) * 2 + (idx !!! 1%nat)).

(** The evaluator: transposition, scaling by 2, local ordinals 0, 2, 3, 4
    of the 2x3 target range, ordinal 4 structurally zero. *)
Definition evaluator : @ArrayEvalImpl Z Z (list nat) (list Z) :=
  mkArrayEvalImpl source 2 [1%nat; 0%nat] [0; 2; 3; 4]
                  (λ i, i =? 4) (λ i, [i / 3; i mod 3]).

(** The same evaluator without a permutation. *)
Definition plain_evaluator : @ArrayEvalImpl Z Z (list nat) (list Z) :=
  mkArrayEvalImpl source 2 [] [0; 2; 3; 4]
                  (λ i, i =? 4) (λ i, [i / 3; i mod 3]).

(** The state [eval_tiles] leaves, and the task count it returns, for the
    two evaluators. *)
Definition evaluated : world * size_type :=
  default (empty_world, 0) (eval_tiles evaluator empty_world).

Definition plain_evaluated : world * size_type :=
  default (empty_world, 0) (eval_tiles plain_evaluator empty_world).

End Example.

(** ** meta.h: the invoke dispatcher *)

Module Meta.

(** An argument of [invoke].  The overload is selected on the argument
    types with [madness::is_future]: an argument is either a plain value
    or a [madness::Future], whatever the state of that future. *)
Inductive arg (T : Type) : Type :=
| Val (v : T)
| Fut (f : Future T).
Arguments Val {T} _.
Arguments Fut {T} _.

(** [madness::is_future<std::decay_t<Arg>>::value] *)
Definition is_future {T} (a : arg T) : bool :=
  match a with Fut _ => true | Val _ => false end.

(** [or_reduce<head, tail...>::value = head || or_reduce<tail...>::value],
    [or_reduce<b>::value = b] *)
Fixpoint or_reduce (head : bool) (tail : list bool) : bool :=
  match tail with
  | [] => head
  | b :: rest => head || or_reduce b rest
  end.

(** The value an argument stands for: itself, or the one its handle
    delivers. *)
Definition arg_value {T} (a : arg T) : T :=
  match a with Val v => v | Fut f => fut_value f end.

(** Whether the task queue can run a function of this argument now. *)
Definition arg_ready {T} (a : arg T) : bool :=
  match a with Val _ => true | Fut f => probe f end.

(** A task in the world's queue: whether all its dependencies are
    resolved, and the application it will perform. *)
Record task : Type := mkTask {
  task_ready : bool;
  task_result_type : Type;
  task_result : task_result_type
}.

Definition task_queue : Type := list task.

(** [world.taskq.add(fn, args...)]: the application is queued and an
    asynchronous handle to its result is returned; the handle is not
    resolved when [add] returns. *)
Definition taskq_add {R} (q : task_queue) (ready : bool) (result : R)
  : Future R * task_queue :=
  (mkFuture false result, q ++ [mkTask ready R result]).

(** [invoke(fn, arg)]: the two overloads, for a call with one argument.
    - no argument is a [Future]: [return fn(std::forward<Args>(args)...)]
    - some argument is a [Future]:
      [return get_default_world().taskq.add(fn, std::forward<Args>(args)...)] *)
Definition invoke {A R} (fn : A -> R) (a : arg A) (q : task_queue)
  : arg R * task_queue :=
  if negb (or_reduce (is_future a) []) then
    (Val (fn (arg_value a)), q)
  else
    let '(f, q') := taskq_add q (arg_ready a) (fn (arg_value a)) in
    (Fut f, q').

(** The same two overloads for a call with two arguments. *)
Definition invoke2 {A B R} (fn : A -> B -> R) (a : arg A) (b : arg B)
    (q : task_queue) : arg R * task_queue :=
  if negb (or_reduce (is_future a) [is_future b]) then
    (Val (fn (arg_value a) (arg_value b)), q)
  else
    let '(f, q') := taskq_add q (arg_ready a && arg_ready b)
                              (fn (arg_value a) (arg_value b)) in
    (Fut f, q').

End Meta.

(** ** unary_wrapper.h *)

(** The interface the base operation must have (the comment at the head of
    the class): evaluate and permute, evaluate only, and evaluate trying to
    consume the argument. *)
Class Operator (Op argument_type result_type Permutation : Type) : Type := {
  operator_call_perm : Op -> argument_type -> Permutation -> result_type;
  operator_call : Op -> argument_type -> result_type;
  operator_consume : Op -> argument_type -> result_type
}.

(** A lazy tile: [Cast<eval_t<A>, decay_t<A>>] converts it to its
    evaluation type. *)
Class LazyTile (A eval_t : Type) : Type :=
  cast : A -> eval_t.

(** A lazy tile that comes from a stored array ([is_array_tile]) also
    tells whether it may be consumed. *)
Class ArrayTile (A : Type) : Type :=
  is_consumable : A -> bool.

Module UnaryWrapper.
Import Meta.
Section UnaryWrapper.

Context {Op argument_type result_type Permutation index : Type}.
Context `{!Operator Op argument_type result_type Permutation}.
Context `{!PermutationOps Permutation index}.

Record UnaryWrapper : Type := mkUnaryWrapper {
  op_ : Op;                  (* tile operation *)
  perm_ : Permutation        (* permutation applied to the result *)
}.

(** [auto operator()(argument_type& arg) const]
    [{ return (perm_ ? op_(arg, perm_) : op_(arg)); }] *)
Definition apply (w : UnaryWrapper) (arg : argument_type) : result_type :=
  if perm_bool (perm_ w) then operator_call_perm (op_ w) arg (perm_ w)
  else operator_call (op_ w) arg.

(** [operator()(A&& arg)] for a lazy tile that is not an array tile. *)
Definition apply_lazy {A} `{!LazyTile A argument_type}
    (w : UnaryWrapper) (arg : A) (q : task_queue)
  : Meta.arg result_type * task_queue :=
  let '(cast_arg, q1) := invoke cast (Val arg) q in
  if perm_bool (perm_ w)
  then invoke2 (operator_call_perm (op_ w)) cast_arg (Val (perm_ w)) q1
  else invoke (operator_call (op_ w)) cast_arg q1.

(** [result_type operator()(A&& arg)] for a lazy array tile (the result
    is given as [invoke] returns it, together with the task queue):
    [auto cast_arg = invoke(cast, arg);]
    [return (perm_ ? invoke(op_, cast_arg, perm_) :]
    [  (arg.is_consumable() ? invoke(op_consume, cast_arg)]
    [                       : invoke(op_, cast_arg)));] *)
Definition apply_array_tile {A} `{!LazyTile A argument_type} `{!ArrayTile A}
    (w : UnaryWrapper) (arg : A) (q : task_queue)
  : Meta.arg result_type * task_queue :=
  let '(cast_arg, q1) := invoke cast (Val arg) q in
  let op_consume := λ arg, operator_consume (op_ w) arg in
  if perm_bool (perm_ w)
  then invoke2 (operator_call_perm (op_ w)) cast_arg (Val (perm_ w)) q1
  else if is_consumable arg
       then invoke op_consume cast_arg q1
       else invoke (operator_call (op_ w)) cast_arg q1.

(** [result_type consume(A&& arg)] for a lazy tile. *)
Definition consume_lazy {A} `{!LazyTile A argument_type}
    (w : UnaryWrapper) (arg : A) (q : task_queue)
  : Meta.arg result_type * task_queue :=
  let '(cast_arg, q1) := invoke cast (Val arg) q in
  let op_consume := λ arg, operator_consume (op_ w) arg in
  if perm_bool (perm_ w)
  then invoke2 (operator_call_perm (op_ w)) cast_arg (Val (perm_ w)) q1
  else invoke op_consume cast_arg q1.

(** [result_type consume(A&& arg)] for a tile that is not lazy. *)
Definition consume (w : UnaryWrapper) (arg : argument_type) : result_type :=
  if perm_bool (perm_ w) then operator_call_perm (op_ w) arg (perm_ w)
  else operator_consume (op_ w) arg.

End UnaryWrapper.
End UnaryWrapper.

(** A wrapper whose tiles record what was done to them: the lazy tile is a
    flag (is it consumable?), forcing it yields the trace [[forced]], and
    each operator variant appends its own mark. *)

Module WrapperExample.

Inductive step : Type := forced | applied | permuted | consumed.

#[global] Instance tracing_operator
  : Operator unit (list step) (list step) (list nat) := {|
  operator_call_perm _ t _ := t ++ [permuted];
  operator_call _ t := t ++ [applied];
  operator_consume _ t := t ++ [consumed]
|}.

#[global] Instance flag_lazy_tile : LazyTile bool (list step) :=
  λ _, [forced].

#[global] Instance flag_array_tile : ArrayTile bool := λ b, b.

Definition plain_wrapper : @UnaryWrapper.UnaryWrapper unit (list nat) :=
  UnaryWrapper.mkUnaryWrapper tt [].

Definition permuting_wrapper : @UnaryWrapper.UnaryWrapper unit (list nat) :=
  UnaryWrapper.mkUnaryWrapper tt [1%nat; 0%nat].

End WrapperExample.

(** ** vector_op.h *)

Module VectorOp.

(** [TILEDARRAY_CACHELINE_SIZE], and [sizeof(double)] on the supported
    targets. *)
Definition TILEDARRAY_CACHELINE_SIZE : Z := 64.
Definition sizeof_double : Z := 8.

(** [typedef std::integral_constant<std::size_t,
      TILEDARRAY_CACHELINE_SIZE / sizeof(double)> LoopUnwind;] *)
Definition TILEDARRAY_LOOP_UNWIND : Z := TILEDARRAY_CACHELINE_SIZE / sizeof_double.

(** [constexpr std::size_t index_mask = ~std::size_t(TILEDARRAY_LOOP_UNWIND - 1ul);] *)
Definition index_mask : Z := size_wrap (Z.lnot (TILEDARRAY_LOOP_UNWIND - 1)).

(** Arrays are lists; a pointer into an array is the array with an element
    offset.  An access outside the array has no defined behaviour: [None]. *)
Definition load {T} (a : list T) (p : Z) : option T :=
  if bool_decide (0 ≤ p) then a !! Z.to_nat p else None.

Definition store {T} (a : list T) (p : Z) (v : T) : option (list T) :=
  if bool_decide (0 ≤ p < Z.of_nat (length a))
  then Some (<[Z.to_nat p := v]> a) else None.

(** [slice a i len] is [a[i], ..., a[i + len - 1]]; [patch a i new] is [a]
    with the elements from index [i] on overwritten by [new]. *)
Definition slice {T} (a : list T) (i len : nat) : list T :=
  take len (drop i a).

Definition patch {T} (a : list T) (i : nat) (new : list T) : list T :=
  take i a ++ new ++ drop (i + length new) a.

Section VectorOp.

Context {Left Right Result : Type}.
Context `{!Inhabited Left, !Inhabited Right, !Inhabited Result}.

(** The element operation, [Result op(Left, Right)]. *)
Variable op : Left → Right → Result.

(** The calls of [op] made so far, each with its two operands. *)
Definition calls : Type := list (Left * Right).

(** One application [op(result[offset], args[offset]...)] of a block
    operation: [f] gets the element of [result] and the arguments read at
    [offset], and yields the element's new value. [rp] is the offset of the
    [result] pointer in its array; [args] reads the argument pack. *)
Definition apply_at {R X} (f : R → X → calls → R * calls)
    (result : list R) (rp : Z) (args : Z → option X) (offset : Z)
    (log : calls) : option (list R * calls) :=
  r ← load result (rp + offset);
  x ← args offset;
  let '(r', log') := f r x log in
  result' ← store result (rp + offset) r';
  Some (result', log').

(** [VectorOpUnwind<N>::for_each]:
    [offset = TILEDARRAY_LOOP_UNWIND - N - 1ul];
    [op(result[offset], args[offset]...);]
    [VectorOpUnwind<N - 1>::for_each(op, result, args...);]
    and [VectorOpUnwind<0>] ends the recursion. *)
Fixpoint VectorOpUnwind_for_each {R X} (N : nat)
    (f : R → X → calls → R * calls)
    (result : list R) (rp : Z) (args : Z → option X) (log : calls)
  : option (list R * calls) :=
  let offset := size_wrap (TILEDARRAY_LOOP_UNWIND - Z.of_nat N - 1) in
  '(result', log') ← apply_at f result rp args offset log;
  match N with
  | O => Some (result', log')
  | S N1 => VectorOpUnwind_for_each N1 f result' rp args log'
  end.

(** [typedef VectorOpUnwind<TILEDARRAY_LOOP_UNWIND - 1> VecOpUnwindN;]
    [for_each_block(op, result, args...)] *)
Definition for_each_block {R X} (f : R → X → calls → R * calls)
    (result : list R) (rp : Z) (args : Z → option X) (log : calls)
  : option (list R * calls) :=
  VectorOpUnwind_for_each (Z.to_nat (TILEDARRAY_LOOP_UNWIND - 1))
                          f result rp args log.

(** [for_each_block(op, n, result, args...)]:
    [for(std::size_t i = 0ul; i < n; ++i) op(result[i], args[i]...);]
    [count] is the number of iterations left, [i] the loop variable. *)
Fixpoint for_each_block_loop {R X} (count : nat)
    (f : R → X → calls → R * calls) (i : Z)
    (result : list R) (rp : Z) (args : Z → option X) (log : calls)
  : option (list R * calls) :=
  match count with
  | O => Some (result, log)
  | S count' =>
      '(result', log') ← apply_at f result rp args i log;
      for_each_block_loop count' f (i + 1) result' rp args log'
  end.

Definition for_each_block_n {R X} (f : R → X → calls → R * calls)
    (n : Z) (result : list R) (rp : Z) (args : Z → option X) (log : calls)
  : option (list R * calls) :=
  for_each_block_loop (Z.to_nat n) f 0 result rp args log.

(** [copy_block(result, arg)]:
    [for_each_block([] (Result& lhs, const Arg rhs) { lhs = rhs; }, result, arg)] *)
Definition copy_block {T} (result : list T) (rp : Z) (arg : Z → option T)
    (log : calls) : option (list T * calls) :=
  for_each_block (λ _ rhs log, (rhs, log)) result rp arg log.

(** [auto wrapper_op = [&op] (Result& res, const Left l, const Right r)
      { res = op(l, r); };] *)
Definition wrapper_op (res : Result) (lr : Left * Right) (log : calls)
  : Result * calls :=
  (op lr.1 lr.2, log ++ [lr]).

(** A local array [T block[TILEDARRAY_LOOP_UNWIND]], not initialised: its
    elements hold some value of the type. *)
Definition local_block (T : Type) `{!Inhabited T} : list T :=
  replicate (Z.to_nat TILEDARRAY_LOOP_UNWIND) inhabitant.

(** Reading one array at [p + offset], and reading two. *)
Definition read {T} (a : list T) (p : Z) : Z → option T :=
  λ offset, load a (p + offset).

Definition read2 {T U} (a : list T) (b : list U) (p : Z) : Z → option (T * U) :=
  λ offset, l ← load a (p + offset); r ← load b (p + offset); Some (l, r).

(** The blocked loop of [binary_vector_op]:
    [for(; i < nx; i += TILEDARRAY_LOOP_UNWIND) { ... }]
    It returns the final [i] with the result array and the calls made.  The
    loop is bounded by [fuel] iterations; [None] also covers running out of
    it. *)
Fixpoint binary_vector_op_blocks (fuel : nat) (i nx : Z)
    (left : list Left) (right : list Right) (result : list Result)
    (log : calls) : option (Z * list Result * calls) :=
  if bool_decide (i < nx) then
    match fuel with
    | O => None
    | S fuel' =>
        '(left_block, log) ← copy_block (local_block Left) 0 (read left i) log;
        '(right_block, log) ← copy_block (local_block Right) 0 (read right i) log;
        '(result_block, log) ←
            for_each_block wrapper_op (local_block Result) 0
                           (read2 left_block right_block 0) log;
        '(result, log) ← copy_block result i (read result_block 0) log;
        binary_vector_op_blocks fuel' (size_wrap (i + TILEDARRAY_LOOP_UNWIND)) nx
                                left right result log
    end
  else Some (i, result, log).

(** [binary_vector_op(n, left, right, result, op)]: the blocked loop up to
    [nx = n & index_mask], then
    [for_each_block(wrapper_op, n - i, result + i, left + i, right + i)]. *)
Definition binary_vector_op (fuel : nat) (n : Z)
    (left : list Left) (right : list Right) (result : list Result)
  : option (list Result * calls) :=
  let nx := Z.land n index_mask in
  '(i, result, log) ← binary_vector_op_blocks fuel 0 nx left right result [];
  for_each_block_n wrapper_op (size_wrap (n - i)) result i (read2 left right i) log.

End VectorOp.
End VectorOp.

(** ** tests/reduce_task.cpp *)

(** The combine functions of the tests, on [int]. *)
Module ReduceOp.

(** [std::plus<int>], the operation of [ReduceTaskFixture]. *)
Definition plus (a b : Z) : Z := int_wrap (a + b).

(** [result_type operator()() const { return result_type(); }] *)
Definition identity : Z := 0.

(** [void operator()(result_type& result, const result_type& arg) const]
    [{ result += arg; }] *)
Definition reduce (result arg : Z) : Z := int_wrap (result + arg).

(** [void operator()(result_type& result, const first_argument_type& first,]
    [                const second_argument_type& second) const]
    [{ result += first * second; }] *)
Definition reduce_pair (result first second : Z) : Z :=
  int_wrap (result + int_wrap (first * second)).

(** [result_type operator()(first1, second1, first2, second2) const]
    [{ return first1 * second1 + first2 * second2; }] *)
Definition reduce_pairs (first1 second1 first2 second2 : Z) : Z :=
  int_wrap (int_wrap (first1 * second1) + int_wrap (first2 * second2)).

End ReduceOp.

(** The sum of a list of integers, and the sum of the products of a list
    of pairs, over the integers (no wrap-around). *)
Definition total (l : list Z) : Z := foldr Z.add 0 l.

Definition product_total (l : list (Z * Z)) : Z :=
  total ((λ p, p.1 * p.2) <$> l).

(** *** The reduce tasks

    Modelled from the spec: [ReduceTask] and [ReducePairTask]
    ([reduce_task.h] is not among the sources; only its tests are).  The
    specification (4.4, data model) gives a task an accumulator initialised
    with the identity, a count of pending operands and one result handle:
    [add] accepts an available value or a handle to one, strictly before
    [submit]; [submit] closes the operand list and returns the result
    handle; the handle becomes ready by itself once every operand has
    arrived and the binary-tree fold has run, and is not ready before.  The
    fold order is left open by the specification; the model folds the
    operands pairwise, in arrival order.  Completion is modelled as
    immediate: this is the earliest a handle can become ready. *)

Module ReduceEngine.
Section ReduceEngine.

(** [Slot] is what one [add] registers (values and handles), [Leaf] the
    operand once all of it is available, [Input] what resolving a handle
    supplies, [R] the result type. *)
Context {Slot Leaf Input R : Type}.

(** The operand of a slot, once every part of it is available. *)
Variable slot_ready : Slot → option Leaf.
(** Resolving a handle of a slot; [None] if that handle is already set. *)
Variable fill : Input → Slot → option Slot.
(** The fold of the operands that have arrived. *)
Variable fold : list Leaf → R.

Record task_state : Type := mkState {
  operands : list Slot;     (* one slot per add, in the order of the adds *)
  arrived : list Leaf;      (* the operands available so far, in arrival order *)
  submitted : bool;         (* submit() has been called *)
  result : option R         (* the result handle: [None] while it is not ready *)
}.

Definition new_task : task_state := mkState [] [] false None.

(** The pending-operand counter. *)
Definition pending (st : task_state) : nat :=
  length (filter (λ s, slot_ready s = None) (operands st)).

(** The operand a slot contributes when it becomes available. *)
Definition arrival (s : Slot) : list Leaf :=
  match slot_ready s with Some leaf => [leaf] | None => [] end.

(** The fold runs, and the result handle is set, as soon as the operand
    list is closed and nothing is pending. *)
Definition complete (st : task_state) : task_state :=
  if submitted st && bool_decide (pending st = 0%nat)
  then mkState (operands st) (arrived st) (submitted st)
               (Some (fold (arrived st)))
  else st.

Inductive event : Type :=
| ev_add (s : Slot)                 (* add(...) *)
| ev_set (h : nat) (x : Input)      (* a handle of the h-th add is set *)
| ev_submit.                        (* submit() *)

(** One event; [None] is an error: [add] or [submit] after [submit],
    setting a handle twice or a handle no [add] has registered. *)
Definition step (st : task_state) (e : event) : option task_state :=
  match e with
  | ev_add s =>
      if submitted st then None
      else Some (mkState (operands st ++ [s]) (arrived st ++ arrival s)
                         false None)
  | ev_set h x =>
      s ← operands st !! h;
      if bool_decide (slot_ready s = None) then
        s' ← fill x s;
        Some (complete (mkState (<[h := s']> (operands st))
                                (arrived st ++ arrival s')
                                (submitted st) (result st)))
      else None
  | ev_submit =>
      if submitted st then None
      else Some (complete (mkState (operands st) (arrived st) true None))
  end.

Fixpoint run (es : list event) (st : task_state) : option task_state :=
  match es with
  | [] => Some st
  | e :: rest => st' ← step st e; run rest st'
  end.

(** The readiness probe of the result handle, and its blocking retrieval
    ([None]: the call does not return in this state). *)
Definition probe_result (st : task_state) : bool :=
  bool_decide (is_Some (result st)).

Definition get (st : task_state) : option R := result st.

(** The operands available so far, in the order of the adds. *)
Definition supplied (st : task_state) : list Leaf :=
  omap slot_ready (operands st).

(** What every reachable state satisfies: the operands that have arrived
    are the available ones, and the result handle is set exactly when the
    operand list is closed and nothing is pending, to the fold of the
    operands. *)
Definition consistent (st : task_state) : Prop :=
  arrived st ≡ₚ supplied st ∧
  result st = if submitted st && bool_decide (pending st = 0%nat)
              then Some (fold (arrived st)) else None.

End ReduceEngine.
End ReduceEngine.

(** Modelled from the spec: the binary-tree fold of [submit] ("builds a
    binary-tree fold (depth O(log n)) using the caller-supplied binary
    combine function and identity element").  Neighbours are combined
    pairwise, round after round, and the root is combined into the
    accumulator, which starts as the identity. *)
Module TreeFold.
Section TreeFold.
Context {T : Type}.
Variable op : T → T → T.
Variable identity : T.

Fixpoint pair_up (l : list T) : list T :=
  match l with
  | a :: b :: rest => op a b :: pair_up rest
  | _ => l
  end.

Fixpoint rounds (fuel : nat) (l : list T) : list T :=
  match fuel with
  | O => l
  | S fuel' =>
      match l with
      | _ :: _ :: _ => rounds fuel' (pair_up l)
      | _ => l
      end
  end.

Definition tree_fold (l : list T) : T :=
  match rounds (length l) l with
  | [] => identity
  | root :: _ => op identity root
  end.

(** Any other shape of the fold: a binary tree whose leaves are operands
    or the identity. *)
Inductive fold_tree : Type :=
| ft_identity
| ft_leaf (v : T)
| ft_node (l r : fold_tree).

Fixpoint eval (t : fold_tree) : T :=
  match t with
  | ft_identity => identity
  | ft_leaf v => v
  | ft_node l r => op (eval l) (eval r)
  end.

Fixpoint leaves (t : fold_tree) : list T :=
  match t with
  | ft_identity => []
  | ft_leaf v => [v]
  | ft_node l r => leaves l ++ leaves r
  end.

End TreeFold.
End TreeFold.

(** Modelled from the spec: [ReduceTask<int, std::plus<int>>] as the tests
    use it.  A slot is the operand's value, or [None] for a handle that is
    not set yet. *)
Module ReduceTask.

Definition slot_ready (s : option Z) : option Z := s.

Definition fill (v : Z) (s : option Z) : option (option Z) :=
  match s with None => Some (Some v) | Some _ => None end.

Definition fold : list Z → Z := TreeFold.tree_fold ReduceOp.plus 0.

Definition state : Type := @ReduceEngine.task_state (option Z) Z Z.
Definition event : Type := @ReduceEngine.event (option Z) Z.

(** [rt.add(i)], [rt.add(f)] for a fresh future [f], [f.set(v)] for the
    future of the [h]-th add, and [rt.submit()]. *)
Definition add_value (v : Z) : event := ReduceEngine.ev_add (Some v).
Definition add_future : event := ReduceEngine.ev_add None.
Definition set_future (h : nat) (v : Z) : event := ReduceEngine.ev_set h v.
Definition submit : event := ReduceEngine.ev_submit.

Definition run (es : list event) : option state :=
  ReduceEngine.run slot_ready fill fold es ReduceEngine.new_task.

End ReduceTask.

(** Modelled from the spec: [ReducePairTask<ReduceOp>] as the tests use
    it.  A slot holds the two operands of a pair, each a value or a handle
    that is not set yet; the pair arrives when both are available. *)
Module ReducePairTask.

Definition slot_ready (s : option Z * option Z) : option (Z * Z) :=
  match s with
  | (Some first, Some second) => Some (first, second)
  | _ => None
  end.

(** Which handle of the pair is set, and its value. *)
Inductive input : Type := set_first (v : Z) | set_second (v : Z).

Definition fill (x : input) (s : option Z * option Z)
  : option (option Z * option Z) :=
  match x, s with
  | set_first v, (None, second) => Some (Some v, second)
  | set_second v, (first, None) => Some (first, Some v)
  | _, _ => None
  end.

(** Two pairs are combined with the four-argument form of the operation,
    a single pair is accumulated into the identity, and the partial results
    are folded with the two-argument form. *)
Fixpoint combine_pairs (l : list (Z * Z)) : list Z :=
  match l with
  | (f1, s1) :: (f2, s2) :: rest =>
      ReduceOp.reduce_pairs f1 s1 f2 s2 :: combine_pairs rest
  | [(f, s)] => [ReduceOp.reduce_pair ReduceOp.identity f s]
  | [] => []
  end.

Definition fold (l : list (Z * Z)) : Z :=
  TreeFold.tree_fold ReduceOp.reduce ReduceOp.identity (combine_pairs l).

Definition state : Type :=
  @ReduceEngine.task_state (option Z * option Z) (Z * Z) Z.
Definition event : Type := @ReduceEngine.event (option Z * option Z) input.

(** [rt.add(i, j)], [rt.add(f1, f2)] for fresh futures, [f1.set(v)] and
    [f2.set(v)] for the futures of the [h]-th add, and [rt.submit()]. *)
Definition add_values (first second : Z) : event :=
  ReduceEngine.ev_add (Some first, Some second).
Definition add_futures : event := ReduceEngine.ev_add (None, None).
Definition set_first_future (h : nat) (v : Z) : event :=
  ReduceEngine.ev_set h (set_first v).
Definition set_second_future (h : nat) (v : Z) : event :=
  ReduceEngine.ev_set h (set_second v).
Definition submit : event := ReduceEngine.ev_submit.

Definition run (es : list event) : option state :=
  ReduceEngine.run slot_ready fill fold es ReduceEngine.new_task.

(** Any other shape of the fold over pairs, built from the four forms of
    the operation. *)
Inductive pair_tree : Type :=
| pt_identity                                  (* op() *)
| pt_pairs (p1 p2 : Z * Z)                     (* op(f1, s1, f2, s2) *)
| pt_accumulate (t : pair_tree) (p : Z * Z)    (* op(result, first, second) *)
| pt_join (l r : pair_tree).                   (* op(result, arg) *)

Fixpoint eval (t : pair_tree) : Z :=
  match t with
  | pt_identity => ReduceOp.identity
  | pt_pairs p1 p2 => ReduceOp.reduce_pairs p1.1 p1.2 p2.1 p2.2
  | pt_accumulate t p => ReduceOp.reduce_pair (eval t) p.1 p.2
  | pt_join l r => ReduceOp.reduce (eval l) (eval r)
  end.

Fixpoint leaves (t : pair_tree) : list (Z * Z) :=
  match t with
  | pt_identity => []
  | pt_pairs p1 p2 => [p1; p2]
  | pt_accumulate t p => leaves t ++ [p]
  | pt_join l r => leaves l ++ leaves r
  end.

End ReducePairTask.

(** The schedules of the tests. *)
Module ReduceTests.

(** [reduce_task_suite/reduce_value]: [rt.add(i)] for [i = 0..99], then
    [submit]. *)
Definition reduce_value : list ReduceTask.event :=
  (ReduceTask.add_value <$> seqZ 0 100) ++ [ReduceTask.submit].

(** [reduce_task_suite/reduce_future]: a hundred futures are added, the
    task is submitted, and the futures are set to [0..99] in order. *)
Definition reduce_future : list ReduceTask.event :=
  replicate 100 ReduceTask.add_future ++ [ReduceTask.submit] ++
  ((λ i, ReduceTask.set_future (Z.to_nat i) i) <$> seqZ 0 100).

(** The same with the futures set in reverse order. *)
Definition reduce_future_reversed : list ReduceTask.event :=
  replicate 100 ReduceTask.add_future ++ [ReduceTask.submit] ++
  ((λ i, ReduceTask.set_future (Z.to_nat i) i) <$> reverse (seqZ 0 100)).

(** [reduce_pair_task_suite/reduce_value] *)
Definition reduce_pair_value : list ReducePairTask.event :=
  ((λ i, ReducePairTask.add_values i i) <$> seqZ 0 100)
  ++ [ReducePairTask.submit].

(** [reduce_pair_task_suite/reduce_future], with the pairs completed in
    reverse order. *)
Definition reduce_pair_future_reversed : list ReducePairTask.event :=
  replicate 100 ReducePairTask.add_futures ++ [ReducePairTask.submit] ++
  (reverse (seqZ 0 100) ≫=
     λ i, [ReducePairTask.set_first_future (Z.to_nat i) i;
           ReducePairTask.set_second_future (Z.to_nat i) i]).

(** The states these schedules end in. *)
Definition reduce_future_reversed_final : ReduceTask.state :=
  default ReduceEngine.new_task (ReduceTask.run reduce_future_reversed).

Definition reduce_pair_future_reversed_final : ReducePairTask.state :=
  default ReduceEngine.new_task
          (ReducePairTask.run reduce_pair_future_reversed).

End ReduceTests.

(** ** vector_op.h: the other kernels *)

Module VectorKernels.
Import VectorOp.

(** No call log is kept for these kernels: the block operations of
    [VectorOp] are run on an empty log, which they leave empty, and only
    the array they produce is kept. *)
Definition no_log : Type := @calls unit unit.

Definition silent {R X} (g : R → X → R) : R → X → no_log → R * no_log :=
  λ r x log, (g r x, log).

Definition array_of {A} (m : option (A * no_log)) : option A := fst <$> m.

(** The empty argument pack of [for_each_block(op, result)]. *)
Definition no_args : Z → option unit := λ _, Some tt.

(** [copy_block(result, arg)] *)
Definition block_copy {T} (result : list T) (rp : Z) (arg : Z → option T)
  : option (list T) :=
  array_of (copy_block result rp arg []).

(** [for_each_block(op, result, args...)], for an [op] that overwrites
    [result[offset]] with [g] of its old value and the arguments. *)
Definition block_for_each {R X} (g : R → X → R) (result : list R) (rp : Z)
    (args : Z → option X) : option (list R) :=
  array_of (for_each_block (silent g) result rp args []).

(** [for_each_block(op, n, result, args...)] *)
Definition block_for_each_n {R X} (g : R → X → R) (n : Z) (result : list R)
    (rp : Z) (args : Z → option X) : option (list R) :=
  array_of (for_each_block_n (silent g) n result rp args []).

(** [copy_block(n, result, arg)]:
    [for_each_block([] (Result& lhs, const Arg rhs) { lhs = rhs; }, n, result, arg)] *)
Definition block_copy_n {T} (n : Z) (result : list T) (rp : Z)
    (arg : Z → option T) : option (list T) :=
  block_for_each_n (λ _ rhs, rhs) n result rp arg.

(** [VectorOpUnwind<N>::reduce]:
    [op(result, args[offset]...); VectorOpUnwind<N - 1>::reduce(op, result, args...);] *)
Fixpoint VectorOpUnwind_reduce {R X} (N : nat) (f : R → X → R) (result : R)
    (args : Z → option X) : option R :=
  let offset := size_wrap (TILEDARRAY_LOOP_UNWIND - Z.of_nat N - 1) in
  x ← args offset;
  let result' := f result x in
  match N with
  | O => Some result'
  | S N1 => VectorOpUnwind_reduce N1 f result' args
  end.

(** [reduce_block(op, result, args...)] *)
Definition reduce_block {R X} (f : R → X → R) (result : R)
    (args : Z → option X) : option R :=
  VectorOpUnwind_reduce (Z.to_nat (TILEDARRAY_LOOP_UNWIND - 1)) f result args.

(** [reduce_block(op, n, result, args...)]:
    [for(std::size_t i = 0ul; i < n; ++i) op(result, args[i]...);] *)
Fixpoint reduce_block_loop {R X} (count : nat) (f : R → X → R) (i : Z)
    (result : R) (args : Z → option X) : option R :=
  match count with
  | O => Some result
  | S count' =>
      x ← args i;
      reduce_block_loop count' f (i + 1) (f result x) args
  end.

Definition reduce_block_n {R X} (f : R → X → R) (n : Z) (result : R)
    (args : Z → option X) : option R :=
  reduce_block_loop (Z.to_nat n) f 0 result args.









(** The loop [for(; i < nx; i += step) body] of the vector kernels, on a
    state [s]; it returns the final [i] with the state.  [fuel] bounds the
    number of iterations; [None] also covers running out of it. *)
Fixpoint blocked_for {St : Type} (fuel : nat) (step : Z) (i nx : Z)
    (body : Z → St → option St) (s : St) : option (Z * St) :=
  if bool_decide (i < nx) then
    match fuel with
    | O => None
    | S fuel' =>
        s' ← body i s;
        blocked_for fuel' step (size_wrap (i + step)) nx body s'
    end
  else Some (i, s).

Section Kernels.
Context {Left Right Arg Result : Type}.
Context `{!Inhabited Left, !Inhabited Right, !Inhabited Arg, !Inhabited Result}.

(** [binary_vector_op(n, arg, result, op)], the form that updates [result]
    in place: [op(result[i], arg[i])] for [i < n].  [op] gives the new
    value of its first argument. *)
Definition binary_vector_op_inplace (op : Result → Arg → Result)
    (fuel : nat) (n : Z) (arg : list Arg) (result : list Result)
  : option (list Result) :=
  let nx := Z.land n index_mask in
  '(i, result) ←
    blocked_for fuel TILEDARRAY_LOOP_UNWIND 0 nx
      (λ i result,
         arg_block ← block_copy (local_block Arg) 0 (read arg i);
         result_block ← block_copy (local_block Result) 0 (read result i);
         result_block ← block_for_each op result_block 0 (read arg_block 0);
         block_copy result i (read result_block 0))
      result;
  block_for_each_n op (size_wrap (n - i)) result i (read arg i).

(** [unary_vector_op(n, result, op)]: [op(result[i])] in place; its loop
    counts [i += 8ul]. *)
Definition unary_vector_op_inplace (op : Result → Result)
    (fuel : nat) (n : Z) (result : list Result) : option (list Result) :=
  let nx := Z.land n index_mask in
  '(i, result) ←
    blocked_for fuel 8 0 nx
      (λ i result,
         result_block ← block_copy (local_block Result) 0 (read result i);
         result_block ← block_for_each (λ r _, op r) result_block 0 no_args;
         block_copy result i (read result_block 0))
      result;
  block_for_each_n (λ r _, op r) (size_wrap (n - i)) result i no_args.

(** [unary_vector_op(n, arg, result, op)]: [result[i] = op(arg[i])],
    with [wrapper_op = [&op] (Result& res, const Arg a) { res = op(a); }]. *)
Definition unary_vector_op (op : Arg → Result)
    (fuel : nat) (n : Z) (arg : list Arg) (result : list Result)
  : option (list Result) :=
  let nx := Z.land n index_mask in
  let wrapper_op := λ (_ : Result) (a : Arg), op a in
  '(i, result) ←
    blocked_for fuel TILEDARRAY_LOOP_UNWIND 0 nx
      (λ i result,
         arg_block ← block_copy (local_block Arg) 0 (read arg i);
         result_block ←
           block_for_each wrapper_op (local_block Result) 0 (read arg_block 0);
         block_copy result i (read result_block 0))
      result;
  block_for_each_n wrapper_op (size_wrap (n - i)) result i (read arg i).

(** [copy_vector(n, arg, result)], the form that copies block by block. *)
Definition copy_vector (fuel : nat) (n : Z) (arg : list Result)
    (result : list Result) : option (list Result) :=
  let nx := Z.land n index_mask in
  '(i, result) ←
    blocked_for fuel TILEDARRAY_LOOP_UNWIND 0 nx
      (λ i result, block_copy result i (read arg i)) result;
  block_copy_n (size_wrap (n - i)) result i (read arg i).

(** [fill_vector(n, arg, result)], with
    [op = [arg] (Result& res) { res = arg; }]. *)
Definition fill_vector (fuel : nat) (n : Z) (arg : Result)
    (result : list Result) : option (list Result) :=
  let nx := Z.land n index_mask in
  let op := λ (_ : Result) (_ : unit), arg in
  '(i, result) ←
    blocked_for fuel TILEDARRAY_LOOP_UNWIND 0 nx
      (λ i result, block_for_each op result i no_args) result;
  block_for_each_n op (size_wrap (n - i)) result i no_args.

(** [reduce_vector_op(n, left, right, Result& result, op)]:
    [op(result, left[i], right[i])] for [i < n]; its loop counts
    [i += 8ul]. *)
Definition reduce_vector_op (op : Result → Left → Right → Result)
    (fuel : nat) (n : Z) (left : list Left) (right : list Right)
    (result : Result) : option Result :=
  let nx := Z.land n index_mask in
  let f := λ (r : Result) (lr : Left * Right), op r lr.1 lr.2 in
  '(i, result) ←
    blocked_for fuel 8 0 nx
      (λ i result,
         left_block ← block_copy (local_block Left) 0 (read left i);
         right_block ← block_copy (local_block Right) 0 (read right i);
         reduce_block f result (read2 left_block right_block 0))
      result;
  reduce_block_n f (size_wrap (n - i)) result (read2 left right i).

(** [reduce_vector_op(n, arg, Result& result, op)] *)
Definition reduce_vector_op1 (op : Result → Arg → Result)
    (fuel : nat) (n : Z) (arg : list Arg) (result : Result)
  : option Result :=
  let nx := Z.land n index_mask in
  '(i, result) ←
    blocked_for fuel TILEDARRAY_LOOP_UNWIND 0 nx
      (λ i result,
         arg_block ← block_copy (local_block Arg) 0 (read arg i);
         reduce_block op result (read arg_block 0))
      result;
  reduce_block_n op (size_wrap (n - i)) result (read arg i).

(** [reduce_vector_op(n, left, right, Result* result, op)]: the form on a
    result array, [op(result[i], left[i], right[i])] in place; its loop
    counts [i += 8ul]. *)
Definition reduce_vector_op_array (op : Result → Left → Right → Result)
    (fuel : nat) (n : Z) (left : list Left) (right : list Right)
    (result : list Result) : option (list Result) :=
  let nx := Z.land n index_mask in
  let f := λ (r : Result) (lr : Left * Right), op r lr.1 lr.2 in
  '(i, result) ←
    blocked_for fuel 8 0 nx
      (λ i result,
         result_block ← block_copy (local_block Result) 0 (read result i);
         left_block ← block_copy (local_block Left) 0 (read left i);
         right_block ← block_copy (local_block Right) 0 (read right i);
         result_block ←
           block_for_each f result_block 0 (read2 left_block right_block 0);
         block_copy result i (read result_block 0))
      result;
  block_for_each_n f (size_wrap (n - i)) result i (read2 left right i).

End Kernels.
End VectorKernels.

(** ** Further concrete inputs *)

Module MoreExamples.
Import ArrayEval.

(** A source array that owns every tile: each handle is resolved. *)
Definition local_source : @array_type Z (list Z) :=
  mkArray (λ _, true)
          (λ j, mkFuture true (10 + j))
          (λ idx, (idx !!! 0%nat) * 2 + (idx !!! 1%nat)).

(** The transposing evaluator of [Example] over that array. *)
Definition local_evaluator : @ArrayEvalImpl Z Z (list nat) (list Z) :=
  mkArrayEvalImpl local_source 2 [1%nat; 0%nat] [0; 2; 3; 4]
                  (λ i, i =? 4) (λ i, [i / 3; i mod 3]).

End MoreExamples.

(** * Part II: theorems *)

Module ArrayEvalFacts.
Import ArrayEval.
Section ArrayEvalFacts.

Context {op_type tile_type eval_type Permutation index : Type}.
Context `{!TileOperation op_type tile_type eval_type}.
Context `{!PermutationOps Permutation index}.

Local Abbreviation Impl := (@ArrayEvalImpl op_type tile_type Permutation index).
Local Abbreviation World := (@world op_type tile_type).
Local Abbreviation Tile := (@LazyArrayTile op_type tile_type).

Implicit Types (self : Impl) (w : World) (i c : size_type).

Lemma size_wrap_small z : 0 ≤ z < size_modulus → size_wrap z = z.
Proof. intros. unfold size_wrap. apply Z.mod_small. lia. Qed.

Lemma size_wrap_succ_add c k :
  size_wrap (size_wrap (c + 1) + k) = size_wrap (c + (1 + k)).
Proof.
  unfold size_wrap, size_modulus.
  rewrite Z.add_mod_idemp_l by lia. f_equal. lia.
Qed.

(** One iteration of the loop, spelled out by cases. *)
Lemma eval_kernel_body_zero self index_of w c i :
  is_zero self i = true →
  eval_kernel_body self index_of (w, c) i = Some (w, c).
Proof. intros Hz. unfold eval_kernel_body. by rewrite Hz. Qed.

Lemma eval_kernel_body_ready self index_of w c i :
  is_zero self i = false →
  probe (find (array_ self) (index_of i)) = true →
  eval_kernel_body self index_of (w, c) i =
    Some (dist_set_tile w i (source_tile self index_of i), size_wrap (c + 1)).
Proof.
  intros Hz Hp. unfold eval_kernel_body, future_get, source_tile.
  by rewrite Hz, Hp.
Qed.

Lemma eval_kernel_body_pending self index_of w c i :
  is_zero self i = false →
  probe (find (array_ self) (index_of i)) = false →
  eval_kernel_body self index_of (w, c) i =
    Some (taskq_add w (source_task self index_of i), size_wrap (c + 1)).
Proof.
  intros Hz Hp. unfold eval_kernel_body, source_task.
  by rewrite Hz, Hp.
Qed.

Lemma nonzero_of_cons_zero self i its :
  is_zero self i = true → nonzero_of self (i :: its) = nonzero_of self its.
Proof.
  intros Hz. unfold nonzero_of. apply filter_cons_False. by rewrite Hz.
Qed.

Lemma nonzero_of_cons_nonzero self i its :
  is_zero self i = false → nonzero_of self (i :: its) = i :: nonzero_of self its.
Proof. intros Hz. unfold nonzero_of. by apply filter_cons_True. Qed.

Lemma ready_tiles_cons self index_of i its :
  is_zero self i = false →
  ready_tiles self index_of (i :: its) =
    (if probe (find (array_ self) (index_of i))
     then [(i, source_tile self index_of i)] else [])
    ++ ready_tiles self index_of its.
Proof.
  intros Hz. unfold ready_tiles. rewrite nonzero_of_cons_nonzero by done.
  destruct (probe _) eqn:Hp.
  - by rewrite filter_cons_True.
  - rewrite filter_cons_False; [done | by rewrite Hp].
Qed.

Lemma deferred_tasks_cons self index_of i its :
  is_zero self i = false →
  deferred_tasks self index_of (i :: its) =
    (if probe (find (array_ self) (index_of i))
     then [] else [source_task self index_of i])
    ++ deferred_tasks self index_of its.
Proof.
  intros Hz. unfold deferred_tasks. rewrite nonzero_of_cons_nonzero by done.
  destruct (probe _) eqn:Hp.
  - rewrite filter_cons_False; [done | by rewrite Hp].
  - by rewrite filter_cons_True.
Qed.

(** The counter after the loop: [task_count] is incremented, modulo
    [2^64], once per ordinal that is not structurally zero. *)
Lemma count_step c (l : list size_type) x :
  (if decide (x :: l = []) then c
   else size_wrap (c + Z.of_nat (length (x :: l)))) =
  (if decide (l = []) then size_wrap (c + 1)
   else size_wrap (size_wrap (c + 1) + Z.of_nat (length l))).
Proof.
  rewrite decide_False by done. case_decide as Hnil.
  - subst l. done.
  - rewrite size_wrap_succ_add. f_equal. simpl length. lia.
Qed.

(** The loop in closed form: it never blocks, appends the ready tiles to
    the store and the pending ones to the task queue, and counts the
    ordinals that are not structurally zero. *)
Lemma eval_kernel_loop_spec self index_of its w c :
  eval_kernel_loop self index_of its (w, c) =
    Some (mkWorld (tiles w ++ ready_tiles self index_of its)
                  (taskq w ++ deferred_tasks self index_of its),
          if decide (nonzero_of self its = []) then c
          else size_wrap (c + Z.of_nat (length (nonzero_of self its)))).
Proof.
  revert w c. induction its as [|i its IH]; intros w c;
    cbn [eval_kernel_loop].
  - destruct w. simpl. by rewrite !app_nil_r.
  - destruct (is_zero self i) eqn:Hz.
    + rewrite eval_kernel_body_zero by done. simpl. rewrite IH.
      unfold ready_tiles, deferred_tasks.
      by rewrite nonzero_of_cons_zero.
    + rewrite ready_tiles_cons, deferred_tasks_cons by done.
      rewrite nonzero_of_cons_nonzero, count_step by done.
      destruct (probe (find (array_ self) (index_of i))) eqn:Hp.
      * rewrite eval_kernel_body_ready by done. simpl. rewrite IH. simpl.
        by rewrite <- !app_assoc.
      * rewrite eval_kernel_body_pending by done. simpl. rewrite IH. simpl.
        by rewrite <- !app_assoc.
Qed.

(** [eval_tiles] in closed form, from any starting state. *)
Lemma eval_tiles_spec self w :
  eval_tiles self w =
    Some (mkWorld
            (tiles w ++ ready_tiles self (source_ordinal self) (pmap_local self))
            (taskq w ++ deferred_tasks self (source_ordinal self) (pmap_local self)),
          if decide (nonzero_local self = []) then 0
          else size_wrap (Z.of_nat (length (nonzero_local self)))).
Proof.
  unfold eval_tiles, source_ordinal, eval_kernel, nonzero_local.
  destruct (1 <? perm_dim (perm self)); apply eval_kernel_loop_spec.
Qed.

Lemma run_tasks_tiles self w :
  tiles (run_tasks self w) =
    tiles w ++
    ((λ t, (task_index t,
            mkLazyArrayTile (fut_value (task_tile t)) (Some (impl_op_ self))
                            (task_consume t))) <$> taskq w).
Proof.
  unfold run_tasks.
  assert (∀ q w0, tiles (foldl (run_task self) w0 q) =
    tiles w0 ++ ((λ t, (task_index t,
            mkLazyArrayTile (fut_value (task_tile t)) (Some (impl_op_ self))
                            (task_consume t))) <$> q)) as Hq.
  { induction q as [|t q IH]; intros w0; simpl.
    - by rewrite app_nil_r.
    - rewrite IH. simpl. by rewrite <- app_assoc. }
  by rewrite Hq.
Qed.

Lemma elem_of_inserted_for w i (t : LazyArrayTile) :
  t ∈ inserted_for w i ↔ (i, t) ∈ tiles w.
Proof.
  unfold inserted_for. rewrite list_elem_of_fmap. split.
  - intros [[j t'] [-> [Hj Hin]%list_elem_of_filter]]. simpl in *. by subst.
  - intros Hin. exists (i, t). split; [done|].
    apply list_elem_of_filter. by split.
Qed.

Lemma elem_of_queued_for w i (t : set_tile_task) :
  t ∈ queued_for w i ↔ task_index t = i ∧ t ∈ taskq w.
Proof. unfold queued_for. by rewrite list_elem_of_filter. Qed.

Lemma elem_of_nonzero_of self its i :
  i ∈ nonzero_of self its ↔ is_zero self i = false ∧ i ∈ its.
Proof. unfold nonzero_of. by rewrite list_elem_of_filter. Qed.

Lemma elem_of_ready_tiles self index_of its i (t : LazyArrayTile) :
  (i, t) ∈ ready_tiles self index_of its ↔
    t = source_tile self index_of i ∧ is_zero self i = false ∧ i ∈ its ∧
    probe (find (array_ self) (index_of i)) = true.
Proof.
  unfold ready_tiles. rewrite list_elem_of_fmap. split.
  - intros (j & [= -> ->] & [Hp [Hz Hin]%elem_of_nonzero_of]%list_elem_of_filter).
    done.
  - intros (-> & Hz & Hin & Hp). exists i. split; [done|].
    apply list_elem_of_filter. by rewrite elem_of_nonzero_of.
Qed.

Lemma elem_of_deferred_tasks self index_of its (t : set_tile_task) :
  t ∈ deferred_tasks self index_of its ↔
    ∃ i, t = source_task self index_of i ∧ is_zero self i = false ∧ i ∈ its ∧
         probe (find (array_ self) (index_of i)) = false.
Proof.
  unfold deferred_tasks. rewrite list_elem_of_fmap. split.
  - intros (j & -> & [Hp [Hz Hin]%elem_of_nonzero_of]%list_elem_of_filter).
    by exists j.
  - intros (i & -> & Hz & Hin & Hp). exists i. split; [done|].
    apply list_elem_of_filter. by rewrite elem_of_nonzero_of.
Qed.

(** The store once every queued task has run: exactly one kind of entry,
    the lazy tile of the source tile, for exactly the local ordinals that
    are not structurally zero. *)
Lemma final_store_elem self w n j (t : LazyArrayTile) :
  eval_tiles self empty_world = Some (w, n) →
  (j, t) ∈ tiles (run_tasks self w) ↔
    t = source_tile self (source_ordinal self) j ∧
    is_zero self j = false ∧ j ∈ pmap_local self.
Proof.
  rewrite eval_tiles_spec. intros [= <- _].
  rewrite run_tasks_tiles. simpl.
  rewrite elem_of_app, elem_of_ready_tiles, list_elem_of_fmap. split.
  - intros [(-> & Hz & Hin & _)
            |(tk & [= -> ->] & (i & -> & Hz & Hin & Hp)%elem_of_deferred_tasks)];
      done.
  - intros (-> & Hz & Hin).
    destruct (probe (find (array_ self) (source_ordinal self j))) eqn:Hp.
    + left. done.
    + right. exists (source_task self (source_ordinal self) j). split; [done|].
      apply elem_of_deferred_tasks. by exists j.
Qed.

Lemma inserted_or_queued self w n i :
  eval_tiles self empty_world = Some (w, n) →
  i ∈ pmap_local self → is_zero self i = false →
  if probe (find (array_ self) (source_ordinal self i))
  then source_tile self (source_ordinal self) i ∈ inserted_for w i
  else source_task self (source_ordinal self) i ∈ queued_for w i.
Proof.
  rewrite eval_tiles_spec. intros [= <- _] Hin Hz.
  destruct (probe _) eqn:Hp.
  - apply elem_of_inserted_for. simpl. by apply elem_of_ready_tiles.
  - apply elem_of_queued_for. split; [done|]. simpl.
    apply elem_of_deferred_tasks. by exists i.
Qed.

(** C1.  In the tile-evaluation loop of [ArrayEvalImpl], for every target
    ordinal [i] that is local to the evaluator and not structurally zero,
    work is recorded for [i] (a tile inserted at once or a task waiting
    for the handle), and the consume flag recorded with the fetched source
    tile, in the inserted lazy tile, in the queued task and in the tile the
    task inserts when it runs, is set if and only if the source array does
    not own the source tile locally. *)
Theorem consumable_iff_source_not_local self w n i :
  eval_tiles self empty_world = Some (w, n) →
  i ∈ pmap_local self →
  is_zero self i = false →
  (inserted_for w i ≠ [] ∨ queued_for w i ≠ []) ∧
  (∀ t, t ∈ inserted_for w i →
     (consume_ t = true ↔
      is_local (array_ self) (source_ordinal self i) = false)) ∧
  (∀ t, t ∈ queued_for w i →
     task_tile t = find (array_ self) (source_ordinal self i) ∧
     (task_consume t = true ↔
      is_local (array_ self) (source_ordinal self i) = false)) ∧
  (∀ t, t ∈ inserted_for (run_tasks self w) i →
     (consume_ t = true ↔
      is_local (array_ self) (source_ordinal self i) = false)).
Proof.
  intros Hev Hin Hz.
  pose proof (inserted_or_queued self w n i Hev Hin Hz) as Hrec.
  assert (∀ b : bool, negb b = true ↔ b = false) as Hneg
    by (intros []; simpl; split; congruence).
  split; [|split; [|split]].
  - destruct (probe _).
    + left. intros Hnil. rewrite Hnil in Hrec. by apply elem_of_nil in Hrec.
    + right. intros Hnil. rewrite Hnil in Hrec. by apply elem_of_nil in Hrec.
  - intros t Ht%elem_of_inserted_for.
    assert ((i, t) ∈ tiles (run_tasks self w)) as Hfin.
    { rewrite run_tasks_tiles. apply elem_of_app. by left. }
    apply (final_store_elem self w n) in Hfin as (-> & _); [|done].
    simpl. apply Hneg.
  - intros t [Hi Ht]%elem_of_queued_for.
    revert Hev Ht. rewrite eval_tiles_spec. intros [= <- _]. simpl.
    intros (j & -> & _)%elem_of_deferred_tasks. simpl in Hi. subst j.
    simpl. split; [done | apply Hneg].
  - intros t Ht%elem_of_inserted_for.
    apply (final_store_elem self w n) in Ht as (-> & _); [|done].
    simpl. apply Hneg.
Qed.

(** C2.  [eval_tiles] returns exactly the number of target ordinals that
    are local to the evaluator's process map and not structurally zero (the
    counter is a [size_t]: the count is below [2^64]); every insertion and
    every submitted task belongs to one of them, and nothing is inserted or
    submitted for a structurally zero ordinal. *)
Theorem eval_tiles_counts_nonzero_local self :
  Z.of_nat (length (nonzero_local self)) < size_modulus →
  ∃ w,
    eval_tiles self empty_world =
      Some (w, Z.of_nat (length (filter (λ i, is_zero self i = false)
                                        (pmap_local self)))) ∧
    (length (tiles w) + length (taskq w) = length (nonzero_local self))%nat ∧
    (∀ i, is_zero self i = true →
       inserted_for w i = [] ∧ queued_for w i = []
       ∧ inserted_for (run_tasks self w) i = []).
Proof.
  intros Hlt. eexists. split; [|split].
  - rewrite eval_tiles_spec. f_equal. f_equal.
    fold (nonzero_of self (pmap_local self)). fold (nonzero_local self).
    case_decide as Hnil.
    + by rewrite Hnil.
    + apply size_wrap_small. lia.
  - simpl. unfold ready_tiles, deferred_tasks, nonzero_local.
    rewrite !length_fmap.
    generalize (nonzero_of self (pmap_local self)) as l.
    induction l as [|x l IH]; [done|].
    destruct (probe (find (array_ self) (source_ordinal self x))) eqn:Hp.
    + rewrite filter_cons_True by done.
      rewrite (filter_cons_False (λ i, probe _ = false)) by (by rewrite Hp).
      simpl. lia.
    + rewrite filter_cons_False by (by rewrite Hp).
      rewrite (filter_cons_True (λ i, probe _ = false)) by done.
      simpl. lia.
  - intros i Hz. split; [|split].
    + apply elem_of_nil_inv. intros t Ht%elem_of_inserted_for.
      simpl in Ht. apply elem_of_ready_tiles in Ht as (_ & Hz' & _).
      congruence.
    + apply elem_of_nil_inv. intros t [Hi Ht]%elem_of_queued_for.
      simpl in Ht. apply elem_of_deferred_tasks in Ht as (j & -> & Hz' & _).
      simpl in Hi. congruence.
    + apply elem_of_nil_inv. intros t Ht%elem_of_inserted_for.
      eapply final_store_elem in Ht as (_ & Hz' & _); [|apply eval_tiles_spec].
      congruence.
Qed.

(** C3.  For every local target ordinal [i] that is not structurally zero,
    the source ordinal is obtained by applying the inverse permutation to
    the multi-index of [i] (when the permutation has more than one
    dimension) and is [i] itself otherwise, in particular when no
    permutation is given; the tile stored for [i] holds the source tile at
    that ordinal, and converting it yields the operator applied to that
    source tile. *)
Theorem eval_tiles_source_tile self w n i :
  eval_tiles self empty_world = Some (w, n) →
  i ∈ pmap_local self →
  is_zero self i = false →
  (1 < perm_dim (perm self) →
     source_ordinal self i =
       array_ord (array_ self)
                 (perm_apply (perm_inv (perm self)) (range_idx self i))) ∧
  (perm_dim (perm self) ≤ 1 → source_ordinal self i = i) ∧
  inserted_for (run_tasks self w) i ≠ [] ∧
  (∀ t log, t ∈ inserted_for (run_tasks self w) i →
     tile_ t = fut_value (find (array_ self) (source_ordinal self i)) ∧
     to_eval_type t log =
       Some (op_apply (impl_op_ self)
               (fut_value (find (array_ self) (source_ordinal self i)))
               (consume_ t),
             log ++ [(tile_ t, consume_ t)])).
Proof.
  intros Hev Hin Hz. split; [|split; [|split]].
  - intros Hdim. unfold source_ordinal.
    by rewrite (proj2 (Z.ltb_lt _ _) Hdim).
  - intros Hdim. unfold source_ordinal.
    by rewrite (proj2 (Z.ltb_ge _ _) Hdim).
  - intros Hnil.
    assert (source_tile self (source_ordinal self) i
              ∈ inserted_for (run_tasks self w) i) as Hex.
    { apply elem_of_inserted_for, (final_store_elem self w n); done. }
    rewrite Hnil in Hex. by apply elem_of_nil in Hex.
  - intros t log Ht%elem_of_inserted_for.
    apply (final_store_elem self w n) in Ht as (-> & _); done.
Qed.

(** C8.  Serializing a [LazyArrayTile] is a fatal assertion failure: for
    every archive and every tile, and so in particular for a tile that has
    not been evaluated, [serialize] does not complete. *)
Theorem serialize_is_fatal {Archive : Type} (t : Tile) (ar : Archive) :
  serialize t ar = AssertionFailure ∧
  (∀ u, serialize t ar ≠ Completed u).
Proof. split; [reflexivity | intros u; discriminate]. Qed.

Lemma to_eval_type_times_spec (tile : tile_type) (o : op_type) (consume : bool)
    (k : nat) (log : @op_log tile_type) :
  to_eval_type_times k (mkLazyArrayTile tile (Some o) consume) log =
    Some (replicate k (op_apply o tile consume),
          log ++ replicate k (tile, consume)).
Proof.
  revert log. induction k as [|k IH]; intros log; simpl.
  - by rewrite app_nil_r.
  - rewrite IH. simpl. by rewrite <- app_assoc.
Qed.

(** C9 (as amended).  A [LazyArrayTile] converts to its evaluation type on
    demand, and on every demand: building the tile applies nothing, each
    conversion applies the shared operation once to the stored tile with
    the stored consume flag, and a tile converted [k] times has applied the
    operation [k] times, with the same arguments and the same result each
    time. *)
Theorem lazy_tile_converts_on_every_use (tile : tile_type) (o : op_type)
    (consume : bool) (k : nat) (log : @op_log tile_type) :
  to_eval_type (mkLazyArrayTile tile (Some o) consume) log =
    Some (op_apply o tile consume, log ++ [(tile, consume)]) ∧
  to_eval_type_times k (mkLazyArrayTile tile (Some o) consume) log =
    Some (replicate k (op_apply o tile consume),
          log ++ replicate k (tile, consume)) ∧
  (∀ rs log', to_eval_type_times k (mkLazyArrayTile tile (Some o) consume) log
                = Some (rs, log') →
     length log' = (length log + k)%nat ∧ length rs = k).
Proof.
  split; [done | split; [apply to_eval_type_times_spec|]].
  intros rs log'. rewrite to_eval_type_times_spec. intros [= <- <-].
  by rewrite length_app, !length_replicate.
Qed.

End ArrayEvalFacts.

(** The theorems at the transposing evaluator of [Example]: target ordinal
    2 has multi-index (0,2), its source tile is ordinal 4, which the source
    array does not own; ordinal 4 of the target is structurally zero. *)

Lemma consumable_iff_source_not_local_witness :
  eval_tiles Example.evaluator empty_world
    = Some (Example.evaluated.1, Example.evaluated.2) ∧
  2 ∈ pmap_local Example.evaluator ∧
  is_zero Example.evaluator 2 = false ∧
  (∀ t, t ∈ queued_for Example.evaluated.1 2 →
     task_tile t = find (array_ Example.evaluator)
                        (source_ordinal Example.evaluator 2) ∧
     (task_consume t = true ↔
      is_local (array_ Example.evaluator)
               (source_ordinal Example.evaluator 2) = false)).
Proof.
  assert (eval_tiles Example.evaluator empty_world
            = Some (Example.evaluated.1, Example.evaluated.2)) as Hev
    by (vm_compute; reflexivity).
  assert (2 ∈ pmap_local Example.evaluator) as Hin
    by (simpl; repeat constructor).
  assert (is_zero Example.evaluator 2 = false) as Hz by reflexivity.
  split; [exact Hev | split; [exact Hin | split; [exact Hz|]]].
  exact (proj1 (proj2 (proj2
    (consumable_iff_source_not_local Example.evaluator _ _ 2 Hev Hin Hz)))).
Defined.

Lemma eval_tiles_counts_nonzero_local_witness :
  Z.of_nat (length (nonzero_local Example.evaluator)) < size_modulus ∧
  ∃ w, eval_tiles Example.evaluator empty_world = Some (w, 3) ∧
       (length (tiles w) + length (taskq w) = 3)%nat.
Proof.
  assert (Z.of_nat (length (nonzero_local Example.evaluator)) < size_modulus)
    as Hlt by (vm_compute; reflexivity).
  split; [exact Hlt|].
  destruct (eval_tiles_counts_nonzero_local Example.evaluator Hlt)
    as (w & Hev & Hlen & _).
  exists w. split; [exact Hev | exact Hlen].
Defined.

Lemma eval_tiles_source_tile_witness :
  eval_tiles Example.evaluator empty_world
    = Some (Example.evaluated.1, Example.evaluated.2) ∧
  2 ∈ pmap_local Example.evaluator ∧
  is_zero Example.evaluator 2 = false ∧
  source_ordinal Example.evaluator 2 = 4 ∧
  (∀ t log, t ∈ inserted_for (run_tasks Example.evaluator Example.evaluated.1) 2 →
     tile_ t = 14 ∧
     to_eval_type t log = Some (28, log ++ [(tile_ t, consume_ t)])).
Proof.
  assert (eval_tiles Example.evaluator empty_world
            = Some (Example.evaluated.1, Example.evaluated.2)) as Hev
    by (vm_compute; reflexivity).
  assert (2 ∈ pmap_local Example.evaluator) as Hin
    by (simpl; repeat constructor).
  assert (is_zero Example.evaluator 2 = false) as Hz by reflexivity.
  split; [exact Hev | split; [exact Hin | split; [exact Hz|]]].
  destruct (eval_tiles_source_tile Example.evaluator _ _ 2 Hev Hin Hz)
    as (Hperm & _ & _ & Htile).
  split; [reflexivity|].
  intros t log Ht. exact (Htile t log Ht).
Defined.

(** What the two evaluators of [Example] do: the transposing one inserts
    the tiles of target ordinals 0 and 3 (sources 0 and 1, local) at once
    and queues a task for ordinal 2 (source 4, remote); without a
    permutation the sources are the target ordinals themselves. *)
Example evaluator_run :
  eval_tiles Example.evaluator empty_world =
    Some (mkWorld [(0, mkLazyArrayTile 10 (Some 2) false);
                   (3, mkLazyArrayTile 11 (Some 2) false)]
                  [ArrayEval.mkTask 2 (mkFuture false 14) true hipri],
          3).
Proof. reflexivity. Qed.

Example plain_evaluator_run :
  Example.plain_evaluated =
    (mkWorld [(0, mkLazyArrayTile 10 (Some 2) false);
              (2, mkLazyArrayTile 12 (Some 2) false)]
             [ArrayEval.mkTask 3 (mkFuture false 13) true hipri],
     3).
Proof. reflexivity. Qed.

(** The tile the evaluator of [Example] builds for target ordinal 2 (source
    tile 14, consumable), converted twice: the operation is applied twice. *)
Lemma lazy_tile_converted_twice :
  to_eval_type_times 2 (source_tile Example.evaluator
                          (source_ordinal Example.evaluator) 2) []
    = Some ([28; 28], [(14, true); (14, true)]) ∧
  (length [(14, true); (14, true)] > 1)%nat.
Proof. split; [reflexivity | simpl; lia]. Qed.

End ArrayEvalFacts.

Module UnaryWrapperFacts.
Import Meta UnaryWrapper.
Section UnaryWrapperFacts.

Context {Op argument_type result_type Permutation index A : Type}.
Context `{!Operator Op argument_type result_type Permutation}.
Context `{!PermutationOps Permutation index}.
Context `{!LazyTile A argument_type} `{!ArrayTile A}.

Local Abbreviation Wrapper := (@UnaryWrapper Op Permutation).

(** Called on plain values, [invoke] applies the function at once and
    leaves the task queue alone. *)
Lemma invoke_val {X R} (fn : X → R) (v : X) (q : task_queue) :
  invoke fn (Val v) q = (Val (fn v), q).
Proof. reflexivity. Qed.

Lemma invoke2_val {X Y R} (fn : X → Y → R) (x : X) (y : Y) (q : task_queue) :
  invoke2 fn (Val x) (Val y) q = (Val (fn x y), q).
Proof. reflexivity. Qed.

(** C4.  Applied to a lazy tile that comes from a stored array, the wrapper
    first forces the tile ([cast arg]) and hands the forced tile to the
    operator: to the permuting variant whenever a permutation is set,
    whatever the consumable mark; otherwise to the consuming variant
    exactly when the tile is marked consumable, and to the plain variant
    when it is not.  The operator is applied directly: nothing is queued. *)
Theorem apply_array_tile_dispatch (w : Wrapper) (arg : A) (q : task_queue) :
  (perm_bool (perm_ w) = true →
     apply_array_tile w arg q =
       (Val (operator_call_perm (op_ w) (cast arg) (perm_ w)), q)) ∧
  (perm_bool (perm_ w) = false → is_consumable arg = true →
     apply_array_tile w arg q =
       (Val (operator_consume (op_ w) (cast arg)), q)) ∧
  (perm_bool (perm_ w) = false → is_consumable arg = false →
     apply_array_tile w arg q =
       (Val (operator_call (op_ w) (cast arg)), q)).
Proof.
  unfold apply_array_tile. rewrite invoke_val.
  split; [|split].
  - intros ->. apply invoke2_val.
  - intros -> ->. apply invoke_val.
  - intros -> ->. apply invoke_val.
Qed.

(** The [consume] member on a lazy tile: the permuting variant when a
    permutation is set, the consuming variant otherwise. *)
Lemma consume_lazy_dispatch (w : Wrapper) (arg : A) (q : task_queue) :
  consume_lazy w arg q =
    (Val (if perm_bool (perm_ w)
          then operator_call_perm (op_ w) (cast arg) (perm_ w)
          else operator_consume (op_ w) (cast arg)), q).
Proof.
  unfold consume_lazy. rewrite invoke_val.
  destruct (perm_bool (perm_ w)); [apply invoke2_val | apply invoke_val].
Qed.

End UnaryWrapperFacts.

(** The three paths on the tracing wrapper. *)
Example apply_array_tile_consumes :
  apply_array_tile WrapperExample.plain_wrapper true []
    = (Val [WrapperExample.forced; WrapperExample.consumed], []).
Proof. reflexivity. Qed.

Example apply_array_tile_keeps :
  apply_array_tile WrapperExample.plain_wrapper false []
    = (Val [WrapperExample.forced; WrapperExample.applied], []).
Proof. reflexivity. Qed.

Example apply_array_tile_permutes :
  apply_array_tile WrapperExample.permuting_wrapper true []
    = (Val [WrapperExample.forced; WrapperExample.permuted], []).
Proof. reflexivity. Qed.

End UnaryWrapperFacts.

Module DispatchFacts.
Import Meta ArrayEval.
Section DispatchFacts.

Context {op_type tile_type eval_type Permutation index : Type}.
Context `{!TileOperation op_type tile_type eval_type}.
Context `{!PermutationOps Permutation index}.

(** C5 (as amended).  Operator application never waits for an operand.
    [invoke] applies the function directly when no argument is a future,
    and whenever some argument is a future, resolved or not, it submits the
    application to the task queue and returns an unresolved handle to the
    result.  The evaluation loop of [ArrayEvalImpl] always returns (it
    never calls a blocking retrieval on an unresolved handle): a tile whose
    handle is resolved is inserted at once, and for an unresolved handle a
    high-priority task is queued instead. *)
Theorem invoke_never_waits {X Y R : Type} (fn : X → R) (fn2 : X → Y → R)
    (a : arg X) (b : arg Y) (q : task_queue)
    (self : @ArrayEvalImpl op_type tile_type Permutation index)
    (index_of : size_type → size_type) (w : @world op_type tile_type)
    (c i : size_type) :
  (is_future a = false → invoke fn a q = (Val (fn (arg_value a)), q)) ∧
  (is_future a = true →
     invoke fn a q =
       (Fut (mkFuture false (fn (arg_value a))),
        q ++ [Meta.mkTask (arg_ready a) R (fn (arg_value a))])) ∧
  (is_future a = false → is_future b = false →
     invoke2 fn2 a b q = (Val (fn2 (arg_value a) (arg_value b)), q)) ∧
  (is_future a = true ∨ is_future b = true →
     invoke2 fn2 a b q =
       (Fut (mkFuture false (fn2 (arg_value a) (arg_value b))),
        q ++ [Meta.mkTask (arg_ready a && arg_ready b) R
                          (fn2 (arg_value a) (arg_value b))])) ∧
  is_Some (eval_kernel_body self index_of (w, c) i) ∧
  (is_zero self i = false →
   probe (find (array_ self) (index_of i)) = true →
     eval_kernel_body self index_of (w, c) i =
       Some (dist_set_tile w i (source_tile self index_of i),
             size_wrap (c + 1))) ∧
  (is_zero self i = false →
   probe (find (array_ self) (index_of i)) = false →
     eval_kernel_body self index_of (w, c) i =
       Some (taskq_add w (ArrayEval.mkTask i (find (array_ self) (index_of i))
                            (negb (is_local (array_ self) (index_of i))) hipri),
             size_wrap (c + 1))).
Proof.
  repeat split.
  - destruct a; [done | discriminate].
  - destruct a; [discriminate | done].
  - destruct a, b; done || discriminate.
  - intros [Ha | Hb]; destruct a, b; done || discriminate.
  - destruct (is_zero self i) eqn:Hz.
    + by rewrite ArrayEvalFacts.eval_kernel_body_zero.
    + destruct (probe (find (array_ self) (index_of i))) eqn:Hp.
      * by rewrite ArrayEvalFacts.eval_kernel_body_ready.
      * by rewrite ArrayEvalFacts.eval_kernel_body_pending.
  - intros. by apply ArrayEvalFacts.eval_kernel_body_ready.
  - intros. by apply ArrayEvalFacts.eval_kernel_body_pending.
Qed.

End DispatchFacts.

(** A future that is already resolved: no argument of the call is an
    unresolved handle, and still the function is not applied directly; the
    call is queued and a handle comes back. *)
Lemma invoke_resolved_future_is_queued :
  probe (mkFuture true 20) = true ∧
  invoke Z.succ (Fut (mkFuture true 20)) []
    = (Fut (mkFuture false 21), [Meta.mkTask true Z 21]) ∧
  invoke Z.succ (Fut (mkFuture true 20)) [] ≠ (Val 21, []).
Proof. split; [reflexivity | split; [reflexivity | discriminate]]. Qed.

End DispatchFacts.

Module VectorOpFacts.
Import VectorOp.

(** *** The block limit *)

Lemma loop_unwind_value : TILEDARRAY_LOOP_UNWIND = 8.
Proof. reflexivity. Qed.

Lemma size_wrap_mod_small z : 0 ≤ z < 8 → size_wrap z = z.
Proof. intros. unfold size_wrap, size_modulus. apply Z.mod_small. lia. Qed.

(** [n & index_mask] clears the three low bits of a [size_t]: it is the
    largest multiple of 8 that does not exceed [n]. *)
Lemma land_index_mask n :
  0 ≤ n < size_modulus → Z.land n index_mask = 8 * (n / 8).
Proof.
  intros Hn.
  assert (index_mask = Z.ldiff (Z.ones 64) (Z.ones 3)) as -> by reflexivity.
  assert (Z.land n (Z.ldiff (Z.ones 64) (Z.ones 3))
          = Z.ldiff (Z.land n (Z.ones 64)) (Z.ones 3)) as ->.
  { apply Z.bits_inj'. intros k Hk.
    rewrite !Z.land_spec, !Z.ldiff_spec, Z.land_spec.
    by rewrite andb_assoc. }
  rewrite Z.land_ones by lia.
  rewrite (Z.mod_small n (2 ^ 64)) by (unfold size_modulus in Hn; lia).
  rewrite Z.ldiff_ones_r by lia.
  rewrite Z.shiftl_mul_pow2, Z.shiftr_div_pow2 by lia.
  change (2 ^ 3) with 8. lia.
Qed.

(** *** Arrays *)

Section Arrays.
Context {T : Type}.
Implicit Types (a new x y : list T) (i len : nat).

Lemma load_lookup a (p : Z) : 0 ≤ p → load a p = a !! Z.to_nat p.
Proof. intros. unfold load. by rewrite bool_decide_eq_true_2. Qed.

Lemma store_insert a (p : Z) (v : T) :
  0 ≤ p < Z.of_nat (length a) → store a p v = Some (<[Z.to_nat p := v]> a).
Proof. intros. unfold store. by rewrite bool_decide_eq_true_2. Qed.

Lemma patch_nil a i : patch a i [] = a.
Proof. unfold patch. simpl. rewrite Nat.add_0_r. apply take_drop. Qed.

Lemma length_patch a i new :
  (i + length new ≤ length a)%nat → length (patch a i new) = length a.
Proof.
  intros. unfold patch. rewrite !length_app, length_take, length_drop. lia.
Qed.

Lemma patch_insert_cons a i (v : T) new :
  (i < length a)%nat →
  patch (<[i := v]> a) (S i) new = patch a i (v :: new).
Proof.
  intros Hi. unfold patch.
  rewrite drop_insert_lt by lia.
  destruct (lookup_lt_is_Some_2 (<[i := v]> a) i) as [v' Hv'].
  { by rewrite length_insert. }
  rewrite (take_S_r _ _ v') by done.
  rewrite list_lookup_insert_eq in Hv' by done. injection Hv' as <-.
  rewrite take_insert_ge by lia.
  replace (i + length (v :: new))%nat with (S i + length new)%nat
    by (simpl; lia).
  by rewrite <- app_assoc.
Qed.

Lemma patch_patch_adjacent a i x y len :
  length x = len → (i + len + length y ≤ length a)%nat →
  patch (patch a i x) (i + len) y = patch a i (x ++ y).
Proof.
  intros <- Hlen. unfold patch.
  assert (length (take i a) = i) as Hti by (rewrite length_take; lia).
  rewrite (app_assoc (take i a) x).
  rewrite take_app_length' by (rewrite length_app; lia).
  rewrite drop_app_ge by (rewrite length_app; lia).
  rewrite drop_drop, !length_app, Hti, <- !app_assoc.
  replace (i + length x + (i + length x + length y - (i + length x)))%nat
    with (i + (length x + length y))%nat by lia.
  done.
Qed.

Lemma patch_all a new : length new = length a → patch a 0 new = new.
Proof.
  intros Hlen. unfold patch. simpl. rewrite Hlen, drop_all. apply app_nil_r.
Qed.

Lemma length_slice a i len :
  (i + len ≤ length a)%nat → length (slice a i len) = len.
Proof. intros. unfold slice. rewrite length_take, length_drop. lia. Qed.

Lemma slice_app a i m k :
  slice a i (m + k) = slice a i m ++ slice a (i + m) k.
Proof.
  unfold slice. rewrite <- (drop_drop a m i). by rewrite take_take_drop.
Qed.

Lemma slice_all a len : length a = len → slice a 0 len = a.
Proof. intros <-. unfold slice. simpl. apply take_ge. lia. Qed.

Lemma lookup_slice a i len k :
  (k < len)%nat → slice a i len !! k = a !! (i + k)%nat.
Proof. intros. unfold slice. by rewrite lookup_take_lt, lookup_drop. Qed.

End Arrays.

(** *** The two loops *)

Section Loops.
Context {Left Right Result : Type}.
Context `{!Inhabited Left, !Inhabited Right, !Inhabited Result}.
Variable op : Left → Right → Result.

Local Abbreviation Calls := (@calls Left Right).

Lemma seqZ_succ (i : Z) (count : nat) :
  seqZ i (Z.of_nat (S count)) = i :: seqZ (i + 1) (Z.of_nat count).
Proof.
  rewrite seqZ_cons by lia. f_equal. f_equal; lia.
Qed.

(** The counted loop, for an element operation that overwrites the element
    with [g] of the arguments and logs [h] of them: the elements
    [rp + i, ..., rp + i + count - 1] of [result] are overwritten, in
    order. *)
Lemma for_each_block_loop_spec {R X} (f : R → X → Calls → R * Calls)
    (g : X → R) (h : X → Calls) (xs : Z → X) (count : nat) (i : Z)
    (result : list R) (rp : Z) (args : Z → option X) (log : Calls) :
  (∀ r x l, f r x l = (g x, l ++ h x)) →
  0 ≤ i → 0 ≤ rp →
  rp + i + Z.of_nat count ≤ Z.of_nat (length result) →
  (∀ off, i ≤ off < i + Z.of_nat count → args off = Some (xs off)) →
  for_each_block_loop count f i result rp args log =
    Some (patch result (Z.to_nat (rp + i))
                ((λ off, g (xs off)) <$> seqZ i (Z.of_nat count)),
          log ++ concat ((λ off, h (xs off)) <$> seqZ i (Z.of_nat count))).
Proof.
  intros Hf. revert i result log.
  induction count as [|count IH]; intros i result log Hi Hrp Hlen Hargs.
  - cbn [for_each_block_loop]. rewrite seqZ_nil by (simpl; lia). simpl.
    by rewrite patch_nil, app_nil_r.
  - cbn [for_each_block_loop]. unfold apply_at.
    rewrite load_lookup by lia.
    destruct (lookup_lt_is_Some_2 result (Z.to_nat (rp + i))) as [r Hr];
      [lia|].
    rewrite Hr. simpl. rewrite Hargs by lia. simpl. rewrite Hf.
    rewrite store_insert by lia. simpl.
    rewrite IH; [|lia|lia|rewrite length_insert; lia|intros; apply Hargs; lia].
    rewrite seqZ_succ. simpl.
    replace (Z.to_nat (rp + (i + 1))) with (S (Z.to_nat (rp + i))) by lia.
    rewrite patch_insert_cons by lia.
    by rewrite <- app_assoc.
Qed.

(** The unwound recursion makes the same applications as the counted loop
    over the offsets [LOOP_UNWIND - N - 1, ..., LOOP_UNWIND - 1]. *)
Lemma unwind_as_loop {R X} (f : R → X → Calls → R * Calls) (N : nat)
    (result : list R) (rp : Z) (args : Z → option X) (log : Calls) :
  (N ≤ 7)%nat →
  VectorOpUnwind_for_each N f result rp args log =
    for_each_block_loop (S N) f (7 - Z.of_nat N) result rp args log.
Proof.
  revert result log. induction N as [|N IH]; intros result log HN.
  - cbn [VectorOpUnwind_for_each for_each_block_loop].
    change (size_wrap (TILEDARRAY_LOOP_UNWIND - Z.of_nat 0 - 1)) with 7.
    change (7 - Z.of_nat 0) with 7.
    by destruct (apply_at f result rp args 7 log) as [[]|].
  - cbn [VectorOpUnwind_for_each].
    assert (size_wrap (TILEDARRAY_LOOP_UNWIND - Z.of_nat (S N) - 1)
            = 7 - Z.of_nat (S N)) as ->.
    { rewrite loop_unwind_value. unfold size_wrap, size_modulus.
      rewrite Z.mod_small; lia. }
    remember (S N) as M. cbn [for_each_block_loop]. subst M.
    destruct (apply_at f result rp args (7 - Z.of_nat (S N)) log)
      as [[result' log']|]; [|done].
    simpl. rewrite IH by lia.
    by replace (7 - Z.of_nat (S N) + 1) with (7 - Z.of_nat N) by lia.
Qed.

End Loops.

(** *** Reading arrays *)

Section Reading.
Context {T U : Type} `{!Inhabited T, !Inhabited U}.

Lemma read_in_range (a : list T) (p off : Z) :
  0 ≤ p + off < Z.of_nat (length a) →
  read a p off = Some (a !!! Z.to_nat (p + off)).
Proof.
  intros. unfold read. rewrite load_lookup by lia.
  apply list_lookup_lookup_total_lt. lia.
Qed.

Lemma read2_in_range (a : list T) (b : list U) (p off : Z) :
  0 ≤ p + off < Z.of_nat (length a) →
  p + off < Z.of_nat (length b) →
  read2 a b p off =
    Some (a !!! Z.to_nat (p + off), b !!! Z.to_nat (p + off)).
Proof.
  intros. unfold read2. rewrite !load_lookup by lia.
  by rewrite !list_lookup_lookup_total_lt by lia.
Qed.

Lemma fmap_seqZ_slice (a : list T) (p i : Z) (count : nat) :
  0 ≤ p → 0 ≤ i →
  (Z.to_nat (p + i) + count ≤ length a)%nat →
  (λ off, a !!! Z.to_nat (p + off)) <$> seqZ i (Z.of_nat count)
    = slice a (Z.to_nat (p + i)) count.
Proof.
  intros Hp Hi Hlen. apply list_eq. intros k.
  rewrite list_lookup_fmap.
  destruct (decide (k < count)%nat) as [Hk|Hk].
  - rewrite lookup_seqZ_lt, lookup_slice by lia. simpl.
    replace (Z.to_nat (p + (i + Z.of_nat k)))
      with (Z.to_nat (p + i) + k)%nat by lia.
    symmetry. apply list_lookup_lookup_total_lt. lia.
  - rewrite lookup_seqZ_ge by lia. simpl.
    unfold slice. by rewrite lookup_take_ge by lia.
Qed.

Lemma zip_with_fmap_same {A D} (f : T → U → D) (u : A → T) (v : A → U)
    (l : list A) :
  zip_with f (u <$> l) (v <$> l) = (λ x, f (u x) (v x)) <$> l.
Proof. induction l as [|x l IH]; csimpl; [done | by rewrite IH]. Qed.

Lemma concat_singletons {A} (k : A → T) (l : list A) :
  concat ((λ x, [k x]) <$> l) = k <$> l.
Proof. induction l as [|x l IH]; csimpl; [done | by rewrite IH]. Qed.

Lemma concat_nils {A} (l : list A) :
  concat ((λ _, @nil T) <$> l) = [].
Proof. induction l as [|x l IH]; csimpl; done. Qed.

End Reading.

(** *** The blocks of [binary_vector_op] *)

Section Kernel.
Context {Left Right Result : Type}.
Context `{!Inhabited Left, !Inhabited Right, !Inhabited Result}.
Variable op : Left → Right → Result.

Local Abbreviation Calls := (@calls Left Right).

Lemma length_local_block (T : Type) `{!Inhabited T} :
  length (local_block T) = 8%nat.
Proof. unfold local_block. by rewrite length_replicate. Qed.

(** [copy_block] overwrites eight elements of [result] with the eight
    elements read, and calls nothing. *)
Lemma copy_block_spec {T} `{!Inhabited T} (result a : list T) (rp p : Z)
    (log : Calls) :
  0 ≤ rp → rp + 8 ≤ Z.of_nat (length result) →
  0 ≤ p → p + 8 ≤ Z.of_nat (length a) →
  copy_block result rp (read a p) log =
    Some (patch result (Z.to_nat rp) (slice a (Z.to_nat p) 8), log).
Proof.
  intros Hrp Hres Hp Ha. unfold copy_block, for_each_block.
  change (Z.to_nat (TILEDARRAY_LOOP_UNWIND - 1)) with 7%nat.
  rewrite unwind_as_loop by lia. change (7 - Z.of_nat 7) with 0.
  rewrite (for_each_block_loop_spec _ id (λ _, [])
             (λ off, a !!! Z.to_nat (p + off)));
    [|intros; by rewrite app_nil_r|lia|lia|lia
     |intros; apply read_in_range; lia].
  cbn beta. unfold id.
  replace (concat ((λ _ : Z, []) <$> seqZ 0 (Z.of_nat 8)))
    with (@nil (Left * Right)) by (symmetry; apply concat_nils).
  rewrite app_nil_r, Z.add_0_r.
  rewrite fmap_seqZ_slice by lia. by rewrite Z.add_0_r.
Qed.

(** The counted loop with [wrapper_op]: [count] elements of [result] from
    [rp + i] on receive [op] of the operands at [p + i, ...], and each of
    these applications of [op] is made once, in index order. *)
Lemma wrapper_loop_spec (count : nat) (i : Z) (result : list Result) (rp : Z)
    (a : list Left) (b : list Right) (p : Z) (log : Calls) :
  0 ≤ i → 0 ≤ rp → 0 ≤ p →
  rp + i + Z.of_nat count ≤ Z.of_nat (length result) →
  p + i + Z.of_nat count ≤ Z.of_nat (length a) →
  p + i + Z.of_nat count ≤ Z.of_nat (length b) →
  for_each_block_loop count (wrapper_op op) i result rp (read2 a b p) log =
    Some (patch result (Z.to_nat (rp + i))
            (zip_with op (slice a (Z.to_nat (p + i)) count)
                         (slice b (Z.to_nat (p + i)) count)),
          log ++ zip (slice a (Z.to_nat (p + i)) count)
                     (slice b (Z.to_nat (p + i)) count)).
Proof.
  intros Hi Hrp Hp Hres Ha Hb.
  rewrite (for_each_block_loop_spec _ (λ lr, op lr.1 lr.2) (λ lr, [lr])
             (λ off, (a !!! Z.to_nat (p + off), b !!! Z.to_nat (p + off))));
    [|done|lia|lia|lia|intros; apply read2_in_range; lia].
  cbn beta. cbn [fst snd].
  rewrite <- !(fmap_seqZ_slice _ p i count) by lia.
  rewrite (zip_with_fmap_same op (λ off, a !!! Z.to_nat (p + off))
             (λ off, b !!! Z.to_nat (p + off))).
  rewrite (zip_with_fmap_same pair (λ off, a !!! Z.to_nat (p + off))
             (λ off, b !!! Z.to_nat (p + off))).
  do 3 f_equal.
  apply (concat_singletons
           (λ off, (a !!! Z.to_nat (p + off), b !!! Z.to_nat (p + off)))).
Qed.

(** One unwound block of [wrapper_op] on local arrays. *)
Lemma wrapper_block_spec (blk : list Result) (lb : list Left)
    (rb : list Right) (log : Calls) :
  length blk = 8%nat → length lb = 8%nat → length rb = 8%nat →
  for_each_block (wrapper_op op) blk 0 (read2 lb rb 0) log =
    Some (zip_with op lb rb, log ++ zip lb rb).
Proof.
  intros Hblk Hlb Hrb. unfold for_each_block.
  change (Z.to_nat (TILEDARRAY_LOOP_UNWIND - 1)) with 7%nat.
  rewrite unwind_as_loop by lia. change (7 - Z.of_nat 7) with 0.
  rewrite wrapper_loop_spec by lia.
  change (Z.to_nat (0 + 0)) with 0%nat.
  rewrite !slice_all by done.
  rewrite patch_all; [done|].
  rewrite length_zip_with. lia.
Qed.

(** The blocked loop: started at [i] with [k] whole blocks to go, it ends
    at [i + 8 * k], has overwritten exactly the elements in between, and
    has called [op] once for each of them, in index order. *)
Lemma binary_vector_op_blocks_spec (left : list Left) (right : list Right)
    (k : nat) :
  ∀ (fuel i : nat) (result : list Result) (log : Calls),
  (k ≤ fuel)%nat →
  (i + 8 * k ≤ length left)%nat →
  length right = length left →
  length result = length left →
  Z.of_nat (length left) < size_modulus →
  binary_vector_op_blocks op fuel (Z.of_nat i) (Z.of_nat (i + 8 * k))
                          left right result log =
    Some (Z.of_nat (i + 8 * k),
          patch result i (zip_with op (slice left i (8 * k))
                                      (slice right i (8 * k))),
          log ++ zip (slice left i (8 * k)) (slice right i (8 * k))).
Proof.
  induction k as [|k IH]; intros fuel i result log Hfuel Hleft Hright Hres Hmax.
  - replace (i + 8 * 0)%nat with i by lia.
    change (8 * 0)%nat with 0%nat. unfold slice at 1 2 3 4.
    rewrite !take_0. simpl zip_with.
    rewrite patch_nil, app_nil_r.
    destruct fuel; cbn [binary_vector_op_blocks];
      by rewrite bool_decide_eq_false_2 by lia.
  - destruct fuel as [|fuel]; [lia|].
    cbn [binary_vector_op_blocks].
    rewrite bool_decide_eq_true_2 by lia.
    assert (length (slice left i 8) = 8%nat) as Hsl
      by (apply length_slice; lia).
    assert (length (slice right i 8) = 8%nat) as Hsr
      by (apply length_slice; lia).
    assert (length (zip_with op (slice left i 8) (slice right i 8)) = 8%nat)
      as Hsz by (rewrite length_zip_with; lia).
    rewrite (copy_block_spec (local_block Left))
      by (rewrite ?length_local_block; lia).
    cbn [mbind option_bind].
    rewrite (copy_block_spec (local_block Right))
      by (rewrite ?length_local_block; lia).
    cbn [mbind option_bind].
    change (Z.to_nat 0) with 0%nat. rewrite Nat2Z.id.
    rewrite !patch_all by (by rewrite length_local_block).
    rewrite wrapper_block_spec by (by rewrite ?length_local_block).
    cbn [mbind option_bind].
    rewrite copy_block_spec by lia.
    cbn [mbind option_bind].
    change (Z.to_nat 0) with 0%nat. rewrite Nat2Z.id.
    rewrite slice_all by done.
    assert (size_wrap (Z.of_nat i + TILEDARRAY_LOOP_UNWIND)
            = Z.of_nat (i + 8)) as ->.
    { rewrite loop_unwind_value. unfold size_wrap.
      rewrite Z.mod_small; lia. }
    replace (i + 8 * S k)%nat with (i + 8 + 8 * k)%nat by lia.
    rewrite IH; [|lia|lia|done|by rewrite length_patch by lia|done].
    f_equal. f_equal; [f_equal|].
    + rewrite patch_patch_adjacent
        by (rewrite ?length_zip_with, ?length_slice; lia).
      f_equal. rewrite <- zip_with_app by lia.
      replace (8 * S k)%nat with (8 + 8 * k)%nat by lia.
      by rewrite !slice_app.
    + rewrite <- app_assoc. f_equal.
      rewrite <- zip_with_app by lia.
      replace (8 * S k)%nat with (8 + 8 * k)%nat by lia.
      by rewrite !slice_app.
Qed.

Lemma tail_count n :
  0 ≤ n < size_modulus → size_wrap (n - 8 * (n / 8)) = n mod 8.
Proof.
  intros Hn. rewrite <- Z.mod_eq by lia.
  apply size_wrap_mod_small. pose proof (Z.mod_pos_bound n 8). lia.
Qed.

(** C10.  For arrays [left], [right] and [result] of length [n],
    [binary_vector_op] returns with [result[i] = op(left[i], right[i])] at
    every index [i < n], having applied [op] exactly once per index, in
    index order, whether or not [n] is a multiple of the block width 8:
    the blocked loop runs up to [n & index_mask], the largest multiple of
    8 not above [n], and the scalar loop makes the remaining [n mod 8]
    applications.  The blocked loop needs [n / 8] iterations. *)
Theorem binary_vector_op_correct (fuel : nat) (n : Z)
    (left : list Left) (right : list Right) (result : list Result) :
  0 ≤ n < size_modulus →
  Z.of_nat (length left) = n →
  Z.of_nat (length right) = n →
  Z.of_nat (length result) = n →
  (Z.to_nat (n / 8) ≤ fuel)%nat →
  binary_vector_op op fuel n left right result
    = Some (zip_with op left right, zip left right) ∧
  (∀ (i : nat) l r, left !! i = Some l → right !! i = Some r →
     zip_with op left right !! i = Some (op l r) ∧
     zip left right !! i = Some (l, r)) ∧
  length (zip left right) = Z.to_nat n ∧
  Z.land n index_mask = 8 * (n / 8) ∧
  (∃ result1,
     binary_vector_op_blocks op fuel 0 (Z.land n index_mask)
                             left right result []
       = Some (8 * (n / 8), result1,
               zip (take (Z.to_nat (8 * (n / 8))) left)
                   (take (Z.to_nat (8 * (n / 8))) right)) ∧
     for_each_block_n (wrapper_op op) (n mod 8) result1 (8 * (n / 8))
                      (read2 left right (8 * (n / 8)))
                      (zip (take (Z.to_nat (8 * (n / 8))) left)
                           (take (Z.to_nat (8 * (n / 8))) right))
       = Some (zip_with op left right, zip left right)).
Proof.
  intros Hn Hleft Hright Hres Hfuel.
  pose proof (land_index_mask n Hn) as Hland.
  pose proof (Z.mod_pos_bound n 8 ltac:(lia)) as Hmod.
  pose proof (Z.mod_eq n 8 ltac:(lia)) as Hmodeq.
  set (k := Z.to_nat (n / 8)) in *.
  set (m := Z.to_nat (n mod 8)).
  assert (0 ≤ n / 8) as Hdiv by (apply Z.div_pos; lia).
  assert (Z.to_nat (8 * (n / 8)) = (8 * k)%nat) as Hnx by lia.
  assert (8 * (n / 8) = Z.of_nat (8 * k)) as HnxZ by lia.
  assert (length left = (8 * k + m)%nat) as Hll by lia.
  pose proof (binary_vector_op_blocks_spec left right k fuel 0 result []
                Hfuel ltac:(lia) ltac:(lia) ltac:(lia) ltac:(lia)) as Hblocks.
  change (0 + 8 * k)%nat with (8 * k)%nat in Hblocks.
  change (Z.of_nat 0) with 0 in Hblocks. rewrite <- HnxZ in Hblocks.
  change ([] ++ ?l) with l in Hblocks.
  assert (slice left 0 (8 * k) = take (8 * k) left) as Hsl by done.
  assert (slice right 0 (8 * k) = take (8 * k) right) as Hsr by done.
  rewrite Hsl, Hsr in Hblocks.
  assert (for_each_block_n (wrapper_op op) (n mod 8)
            (patch result 0 (zip_with op (take (8 * k) left)
                                         (take (8 * k) right)))
            (8 * (n / 8)) (read2 left right (8 * (n / 8)))
            (zip (take (8 * k) left) (take (8 * k) right))
          = Some (zip_with op left right, zip left right)) as Htail.
  { unfold for_each_block_n. fold m.
    assert (length (zip_with op (take (8 * k) left) (take (8 * k) right))
            = (8 * k)%nat) as Hlz
      by (rewrite length_zip_with, !length_take; lia).
    rewrite wrapper_loop_spec by (rewrite ?length_patch; lia).
    rewrite Z.add_0_r, Hnx.
    assert (slice left (8 * k) m = drop (8 * k) left) as ->
      by (unfold slice; apply take_ge; rewrite length_drop; lia).
    assert (slice right (8 * k) m = drop (8 * k) right) as ->
      by (unfold slice; apply take_ge; rewrite length_drop; lia).
    pose proof (patch_patch_adjacent result 0 _
                  (zip_with op (drop (8 * k) left) (drop (8 * k) right))
                  (8 * k)%nat Hlz) as Hpp.
    change (0 + 8 * k)%nat with (8 * k)%nat in Hpp.
    rewrite Hpp by (rewrite ?length_zip_with, ?length_drop; lia).
    rewrite <- !zip_with_app by (rewrite !length_take; lia).
    rewrite !take_drop.
    rewrite patch_all by (rewrite length_zip_with; lia). done. }
  split; [|split; [|split; [|split]]].
  - unfold binary_vector_op. rewrite Hland, Hblocks.
    cbn [mbind option_bind]. rewrite tail_count by done. exact Htail.
  - intros i l r Hl Hr. rewrite !lookup_zip_with, Hl, Hr. done.
  - rewrite length_zip_with. lia.
  - exact Hland.
  - eexists. rewrite Hland, Hnx. split; [exact Hblocks|exact Htail].
Qed.

End Kernel.

(** The kernel on eleven integers with multiplication: one block of eight
    and a tail of three. *)
Lemma binary_vector_op_correct_witness :
  0 ≤ 11 < size_modulus ∧
  (Z.to_nat (11 / 8) ≤ 1)%nat ∧
  binary_vector_op Z.mul 1 11 (seqZ 1 11) (seqZ 11 11) (replicate 11 0)
    = Some (zip_with Z.mul (seqZ 1 11) (seqZ 11 11),
            zip (seqZ 1 11) (seqZ 11 11)).
Proof.
  assert (0 ≤ 11 < size_modulus) as Hn by (unfold size_modulus; lia).
  assert (Z.to_nat (11 / 8) ≤ 1)%nat as Hfuel by (vm_compute; lia).
  split; [exact Hn | split; [exact Hfuel|]].
  exact (proj1 (binary_vector_op_correct Z.mul 1 11 (seqZ 1 11) (seqZ 11 11)
                  (replicate 11 0) Hn eq_refl eq_refl eq_refl Hfuel)).
Defined.

End VectorOpFacts.

Module ReduceFacts.
Import ReduceEngine.

(** *** The engine *)

Section EngineFacts.
Context {Slot Leaf Input R : Type}.
Variable slot_ready : Slot → option Leaf.
Variable fill : Input → Slot → option Slot.
Variable fold : list Leaf → R.

Local Abbreviation State := (@task_state Slot Leaf R).
Local Abbreviation step' := (step slot_ready fill fold).
Local Abbreviation run' := (run slot_ready fill fold).
Local Abbreviation consistent' := (consistent slot_ready fold).
Local Abbreviation pending' := (pending slot_ready).

Implicit Types (st : State) (es : list (@event Slot Input)).

Lemma omap_singleton (s : Slot) : omap slot_ready [s] = arrival slot_ready s.
Proof. unfold arrival. simpl. by destruct (slot_ready s). Qed.

Lemma omap_insert_pending (l : list Slot) (h : nat) (s s' : Slot) :
  l !! h = Some s → slot_ready s = None →
  omap slot_ready (<[h := s']> l)
    ≡ₚ omap slot_ready l ++ arrival slot_ready s'.
Proof.
  intros Hl Hs.
  rewrite <- (take_drop_middle l h s Hl) at 2.
  rewrite insert_take_drop by (by eapply lookup_lt_Some).
  rewrite !omap_app. simpl. rewrite Hs. unfold arrival.
  destruct (slot_ready s') as [y|].
  - rewrite <- app_assoc. apply Permutation_app_head.
    apply Permutation_cons_append.
  - by rewrite app_nil_r.
Qed.

Lemma pending_pos st (h : nat) (s : Slot) :
  operands st !! h = Some s → slot_ready s = None → pending' st ≠ 0%nat.
Proof.
  intros Hl Hs Hp. unfold pending in Hp.
  apply length_zero_iff_nil in Hp.
  assert (s ∈ filter (λ s, slot_ready s = None) (operands st)) as Hin.
  { apply list_elem_of_filter. split; [done|]. by eapply list_elem_of_lookup_2. }
  rewrite Hp in Hin. by apply elem_of_nil in Hin.
Qed.

Lemma complete_consistent st :
  arrived st ≡ₚ supplied slot_ready st →
  (submitted st && bool_decide (pending' st = 0%nat) = false →
   result st = None) →
  consistent' (complete slot_ready fold st).
Proof.
  intros Harr Hres. unfold consistent, complete.
  destruct (submitted st && bool_decide (pending' st = 0%nat)) eqn:Hc.
  - simpl. unfold pending, supplied in *. simpl. by rewrite Hc.
  - rewrite Hc. auto.
Qed.

Lemma consistent_new : consistent' new_task.
Proof. split; [done | reflexivity]. Qed.

Lemma step_consistent st e st' :
  consistent' st → step' st e = Some st' → consistent' st'.
Proof.
  intros [Harr Hres] Hstep. destruct e as [s|h x|]; simpl in Hstep.
  - destruct (submitted st) eqn:Hsub; [done|]. injection Hstep as <-.
    split; [|done]. unfold supplied. simpl.
    by rewrite omap_app, omap_singleton, Harr.
  - destruct (operands st !! h) as [s|] eqn:Hl; [|done]. simpl in Hstep.
    case_bool_decide as Hs; [|done].
    destruct (fill x s) as [s'|]; [|done]. simpl in Hstep.
    injection Hstep as <-. apply complete_consistent.
    + unfold supplied. simpl.
      by rewrite omap_insert_pending, Harr.
    + intros _. simpl. rewrite Hres.
      rewrite (bool_decide_eq_false_2 (pending' st = 0%nat))
        by (by eapply pending_pos).
      by rewrite andb_false_r.
  - destruct (submitted st) eqn:Hsub; [done|]. injection Hstep as <-.
    by apply complete_consistent.
Qed.

Lemma run_consistent es st st' :
  consistent' st → run' es st = Some st' → consistent' st'.
Proof.
  revert st. induction es as [|e es IH]; intros st Hc Hrun; simpl in Hrun.
  - by injection Hrun as <-.
  - destruct (step' st e) as [st1|] eqn:Hstep; [|done].
    eapply IH; [|exact Hrun]. by eapply step_consistent.
Qed.

Lemma run_app es1 es2 st :
  run' (es1 ++ es2) st = run' es1 st ≫= run' es2.
Proof.
  revert st. induction es1 as [|e es1 IH]; intros st; simpl; [done|].
  destruct (step' st e); simpl; [apply IH | done].
Qed.

Lemma pending_zero st :
  Forall (λ s, is_Some (slot_ready s)) (operands st) → pending' st = 0%nat.
Proof.
  unfold pending. induction 1 as [|s l [leaf Hs] _ IH]; [done|].
  rewrite filter_cons_False; [done | by rewrite Hs].
Qed.

(** A task whose result handle is ready accepts no further event. *)
Lemma ready_is_final st e :
  consistent' st → probe_result st = true → step' st e = None.
Proof.
  intros [_ Hres] Hprobe. unfold probe_result in Hprobe.
  apply bool_decide_eq_true_1 in Hprobe as [r Hr].
  rewrite Hr in Hres.
  destruct (submitted st) eqn:Hsub; [|done]. simpl in Hres.
  case_bool_decide as Hp; [|done].
  destruct e as [s|h x|]; simpl; rewrite ?Hsub; [done| |done].
  destruct (operands st !! h) as [s|] eqn:Hl; [|done]. simpl.
  case_bool_decide as Hs; [|done].
  by destruct (pending_pos st h s).
Qed.

(** While operands are still to come, the handle is not ready: a state
    with a ready handle is the last state of every schedule through it. *)
Lemma ready_is_last es st st' :
  consistent' st → probe_result st = true → run' es st = Some st' →
  es = [] ∧ st' = st.
Proof.
  intros Hc Hp Hrun. destruct es as [|e es]; simpl in Hrun.
  - by injection Hrun as <-.
  - by rewrite ready_is_final in Hrun.
Qed.

End EngineFacts.

(** *** Sums on [int] *)

Lemma int_wrap_add_l a b : int_wrap (int_wrap a + b) = int_wrap (a + b).
Proof.
  unfold int_wrap. f_equal.
  replace ((a + 2 ^ 31) mod 2 ^ 32 - 2 ^ 31 + b + 2 ^ 31)
    with ((a + 2 ^ 31) mod 2 ^ 32 + b) by lia.
  rewrite Z.add_mod_idemp_l by lia. f_equal. lia.
Qed.

Lemma int_wrap_add_r a b : int_wrap (a + int_wrap b) = int_wrap (a + b).
Proof. rewrite (Z.add_comm a), int_wrap_add_l. f_equal. lia. Qed.

Lemma int_wrap_idemp a : int_wrap (int_wrap a) = int_wrap a.
Proof.
  pose proof (int_wrap_add_l a 0) as H. by rewrite !Z.add_0_r in H.
Qed.

Lemma int_wrap_congr a b c d :
  int_wrap a = int_wrap c → int_wrap b = int_wrap d →
  int_wrap (a + b) = int_wrap (c + d).
Proof.
  intros Ha Hb.
  rewrite <- (int_wrap_add_l a b), <- (int_wrap_add_r (int_wrap a) b).
  rewrite Ha, Hb. by rewrite int_wrap_add_r, int_wrap_add_l.
Qed.

Lemma total_cons x l : total (x :: l) = x + total l.
Proof. reflexivity. Qed.

Lemma total_app l k : total (l ++ k) = total l + total k.
Proof.
  unfold total. induction l as [|x l IH]; simpl; [done|]. rewrite IH. lia.
Qed.

Lemma total_permutation l k : l ≡ₚ k → total l = total k.
Proof.
  unfold total. induction 1; simpl; lia.
Qed.

Lemma product_total_permutation l k :
  l ≡ₚ k → product_total l = product_total k.
Proof. intros Hp. unfold product_total. apply total_permutation. by rewrite Hp. Qed.

(** Induction over a list two elements at a time. *)
Lemma list_pair_ind {A} (P : list A → Prop) :
  P [] → (∀ x, P [x]) → (∀ a b l, P l → P (a :: b :: l)) → ∀ l, P l.
Proof.
  intros Hnil Hone Hstep l.
  assert (P l ∧ ∀ x, P (x :: l)) as [H _]; [|exact H].
  induction l as [|y l [IH1 IH2]]; split; auto.
Qed.

Section TreeFoldFacts.
Import TreeFold.

Lemma pair_up_total l :
  int_wrap (total (pair_up ReduceOp.plus l)) = int_wrap (total l).
Proof.
  induction l as [|x|a b l IH] using list_pair_ind; [done|done|].
  cbn [pair_up]. rewrite !total_cons.
  change (ReduceOp.plus a b) with (int_wrap (a + b)).
  rewrite <- int_wrap_add_r, IH, int_wrap_add_r, int_wrap_add_l.
  f_equal. lia.
Qed.

Lemma length_pair_up {T} (op : T → T → T) l :
  (length (pair_up op l) ≤ length l)%nat.
Proof.
  induction l as [|x|a b l IH] using list_pair_ind; simpl; lia.
Qed.

Lemma rounds_total fuel l :
  int_wrap (total (rounds ReduceOp.plus fuel l)) = int_wrap (total l).
Proof.
  revert l. induction fuel as [|fuel IH]; intros l; [done|].
  destruct l as [|a [|b l]]; [done|done|].
  cbn [rounds]. by rewrite IH, pair_up_total.
Qed.

Lemma length_rounds {T} (op : T → T → T) fuel l :
  (length l ≤ S fuel)%nat → (length (rounds op fuel l) ≤ 1)%nat.
Proof.
  revert l. induction fuel as [|fuel IH]; intros l Hl; [done|].
  destruct l as [|a [|b l]]; [simpl; lia|simpl; lia|].
  cbn [rounds]. apply IH. cbn [pair_up]. simpl in *.
  pose proof (length_pair_up op l). lia.
Qed.

(** The pairwise fold with [+] is the sum of the operands, on [int]. *)
Lemma tree_fold_plus l :
  tree_fold ReduceOp.plus 0 l = int_wrap (total l).
Proof.
  unfold tree_fold.
  pose proof (rounds_total (length l) l) as Htot.
  pose proof (length_rounds ReduceOp.plus (length l) l ltac:(lia)) as Hlen.
  destruct (rounds ReduceOp.plus (length l) l) as [|root [|x rest]].
  - by rewrite <- Htot.
  - rewrite <- Htot. rewrite total_cons. unfold ReduceOp.plus.
    f_equal. unfold total. simpl. lia.
  - simpl in Hlen. lia.
Qed.

(** So is every other binary tree over the operands. *)
Lemma eval_tree_total (t : fold_tree) :
  int_wrap (eval ReduceOp.plus 0 t) = int_wrap (total (leaves t)).
Proof.
  induction t as [|v|l IHl r IHr]; cbn [eval leaves].
  - done.
  - unfold total. simpl. f_equal. lia.
  - change (ReduceOp.plus ?x ?y) with (int_wrap (x + y)).
    rewrite int_wrap_idemp, total_app.
    rewrite <- int_wrap_add_l, <- int_wrap_add_r, IHl, IHr.
    by rewrite int_wrap_add_l, int_wrap_add_r.
Qed.

Lemma eval_tree_wrapped (t : fold_tree) :
  (length (leaves t) ≠ 1)%nat →
  eval ReduceOp.plus 0 t = int_wrap (total (leaves t)).
Proof.
  intros Hlen. rewrite <- eval_tree_total.
  destruct t as [|v|l r]; simpl in *; [done|done|].
  unfold ReduceOp.plus. by rewrite int_wrap_idemp.
Qed.

End TreeFoldFacts.

(** *** ReduceTask on 0..99 *)

Lemma omap_Some (l : list Z) : omap ReduceTask.slot_ready (Some <$> l) = l.
Proof. induction l as [|x l IH]; csimpl; [done | by rewrite IH]. Qed.

Lemma reduce_task_closed (st : ReduceTask.state) (l : list Z) :
  consistent ReduceTask.slot_ready ReduceTask.fold st →
  operands st ≡ₚ Some <$> l →
  arrived st ≡ₚ l ∧ pending ReduceTask.slot_ready st = 0%nat.
Proof.
  intros [Harr _] Hops. split.
  - rewrite Harr. unfold supplied. by rewrite Hops, omap_Some.
  - apply pending_zero. rewrite Hops. apply Forall_fmap, Forall_true.
    intros x. by exists x.
Qed.

(** C6.  For a [ReduceTask] with [+] and identity 0 whose operands are
    0..99, added as values or as handles and resolved in any order: once
    the task is submitted and all operands are supplied, the result handle
    is ready and yields 4950 (whatever the shape of the fold tree), and at
    every earlier point of the schedule, while fewer than 100 operands have
    been supplied, the readiness probe returns false. *)
Theorem reduce_task_sum_0_99 (es : list ReduceTask.event)
    (st : ReduceTask.state) :
  ReduceTask.run es = Some st →
  submitted st = true →
  operands st ≡ₚ Some <$> seqZ 0 100 →
  get st = Some 4950 ∧
  probe_result st = true ∧
  (∀ es1 es2 st1,
     es = es1 ++ es2 → ReduceTask.run es1 = Some st1 →
     (length (arrived st1) < 100)%nat → probe_result st1 = false) ∧
  (∀ t : TreeFold.fold_tree,
     TreeFold.leaves t ≡ₚ arrived st →
     TreeFold.eval ReduceOp.plus 0 t = 4950).
Proof.
  intros Hrun Hsub Hops.
  unfold ReduceTask.run, ReduceTask.event, ReduceTask.state in *.
  pose proof (run_consistent _ _ _ _ _ _
                (consistent_new _ ReduceTask.fold) Hrun) as Hc.
  destruct (reduce_task_closed st _ Hc Hops) as [Harr Hpend].
  assert (result st = Some 4950) as Hres.
  { destruct Hc as [_ ->]. rewrite Hsub, Hpend. simpl.
    unfold ReduceTask.fold. rewrite tree_fold_plus.
    by rewrite (total_permutation _ _ Harr). }
  split; [exact Hres | split; [|split]].
  - unfold probe_result. rewrite Hres. apply bool_decide_eq_true_2. by eexists.
  - intros es1 es2 st1 -> Hrun1 Hlen.
    rewrite run_app, Hrun1 in Hrun. simpl in Hrun.
    pose proof (run_consistent _ _ _ _ _ _
                  (consistent_new _ ReduceTask.fold) Hrun1) as Hc1.
    destruct (probe_result st1) eqn:Hp; [|done].
    destruct (ready_is_last _ _ _ _ _ _ Hc1 Hp Hrun) as [_ ->].
    apply Permutation_length in Harr. rewrite length_seqZ in Harr. lia.
  - intros t Ht. rewrite eval_tree_wrapped.
    + by rewrite (total_permutation _ _ Ht), (total_permutation _ _ Harr).
    + rewrite Ht, Harr, length_seqZ. lia.
Qed.

(** The schedule of the test with the futures set in reverse order. *)
Lemma reduce_task_sum_0_99_witness :
  ReduceTask.run ReduceTests.reduce_future_reversed
    = Some ReduceTests.reduce_future_reversed_final ∧
  submitted ReduceTests.reduce_future_reversed_final = true ∧
  operands ReduceTests.reduce_future_reversed_final ≡ₚ Some <$> seqZ 0 100 ∧
  get ReduceTests.reduce_future_reversed_final = Some 4950.
Proof.
  assert (ReduceTask.run ReduceTests.reduce_future_reversed
          = Some ReduceTests.reduce_future_reversed_final) as Hrun
    by (vm_compute; reflexivity).
  assert (submitted ReduceTests.reduce_future_reversed_final = true) as Hsub
    by (vm_compute; reflexivity).
  assert (operands ReduceTests.reduce_future_reversed_final
          = Some <$> seqZ 0 100) as Hops by (vm_compute; reflexivity).
  assert (operands ReduceTests.reduce_future_reversed_final
          ≡ₚ Some <$> seqZ 0 100) as Hperm by (rewrite Hops; reflexivity).
  split; [exact Hrun | split; [exact Hsub | split; [exact Hperm|]]].
  exact (proj1 (reduce_task_sum_0_99 _ _ Hrun Hsub Hperm)).
Defined.

(** *** ReducePairTask on the pairs (i, i) *)

Lemma product_total_cons p l :
  product_total (p :: l) = p.1 * p.2 + product_total l.
Proof. reflexivity. Qed.

Lemma product_total_app l k :
  product_total (l ++ k) = product_total l + product_total k.
Proof. unfold product_total. by rewrite fmap_app, total_app. Qed.

Lemma combine_pairs_total l :
  int_wrap (total (ReducePairTask.combine_pairs l))
    = int_wrap (product_total l).
Proof.
  induction l as [|[f s]|[f1 s1] [f2 s2] l IH] using list_pair_ind.
  - done.
  - cbn [ReducePairTask.combine_pairs]. rewrite total_cons, product_total_cons.
    unfold ReduceOp.reduce_pair, ReduceOp.identity. simpl fst. simpl snd.
    apply int_wrap_congr; [|done].
    rewrite int_wrap_idemp, Z.add_0_l. apply int_wrap_idemp.
  - cbn [ReducePairTask.combine_pairs].
    rewrite total_cons, !product_total_cons.
    unfold ReduceOp.reduce_pairs. simpl fst. simpl snd.
    rewrite Z.add_assoc. apply int_wrap_congr; [|exact IH].
    rewrite int_wrap_idemp. apply int_wrap_congr; apply int_wrap_idemp.
Qed.

(** The fold of the pair task is the sum of the products, on [int]. *)
Lemma pair_fold_total l :
  ReducePairTask.fold l = int_wrap (product_total l).
Proof.
  unfold ReducePairTask.fold.
  change (TreeFold.tree_fold ReduceOp.reduce ReduceOp.identity)
    with (TreeFold.tree_fold ReduceOp.plus 0).
  by rewrite tree_fold_plus, combine_pairs_total.
Qed.

(** So is every other tree built from the four forms of the operation. *)
Lemma pair_tree_total (t : ReducePairTask.pair_tree) :
  ReducePairTask.eval t
    = int_wrap (product_total (ReducePairTask.leaves t)).
Proof.
  induction t as [|[f1 s1] [f2 s2]|t IH [f s]|l IHl r IHr];
    cbn [ReducePairTask.eval ReducePairTask.leaves].
  - done.
  - unfold ReduceOp.reduce_pairs. simpl fst. simpl snd.
    rewrite !product_total_cons. simpl fst. simpl snd.
    change (product_total []) with 0. rewrite Z.add_0_r.
    apply int_wrap_congr; apply int_wrap_idemp.
  - unfold ReduceOp.reduce_pair. simpl fst. simpl snd.
    rewrite product_total_app, product_total_cons. simpl fst. simpl snd.
    change (product_total []) with 0. rewrite Z.add_0_r.
    apply int_wrap_congr; [|apply int_wrap_idemp].
    by rewrite IH, int_wrap_idemp.
  - unfold ReduceOp.reduce. rewrite product_total_app.
    apply int_wrap_congr; [rewrite IHl | rewrite IHr]; apply int_wrap_idemp.
Qed.

Lemma omap_pairs (l : list Z) :
  omap ReducePairTask.slot_ready ((λ i, (Some i, Some i)) <$> l)
    = (λ i, (i, i)) <$> l.
Proof. induction l as [|x l IH]; csimpl; [done | by rewrite IH]. Qed.

Lemma reduce_pair_task_closed (st : ReducePairTask.state) (l : list Z) :
  consistent ReducePairTask.slot_ready ReducePairTask.fold st →
  operands st ≡ₚ (λ i, (Some i, Some i)) <$> l →
  arrived st ≡ₚ (λ i, (i, i)) <$> l ∧
  pending ReducePairTask.slot_ready st = 0%nat.
Proof.
  intros [Harr _] Hops. split.
  - rewrite Harr. unfold supplied. by rewrite Hops, omap_pairs.
  - apply pending_zero. rewrite Hops. apply Forall_fmap, Forall_true.
    intros x. by exists (x, x).
Qed.

(** C7.  For a [ReducePairTask] over the pairs (i, i), i = 0..99, with the
    product-sum operation: once the task is submitted and all pairs are
    supplied, as values or through handles resolved in any order, the
    result is the sum of the squares, 328350; the fold gives the same for
    every arrival order of the pairs and for every shape of the tree. *)
Theorem reduce_pair_task_sum_of_squares (es : list ReducePairTask.event)
    (st : ReducePairTask.state) :
  ReducePairTask.run es = Some st →
  submitted st = true →
  operands st ≡ₚ (λ i, (Some i, Some i)) <$> seqZ 0 100 →
  get st = Some 328350 ∧
  (∀ l, l ≡ₚ arrived st → ReducePairTask.fold l = 328350) ∧
  (∀ t : ReducePairTask.pair_tree,
     ReducePairTask.leaves t ≡ₚ arrived st →
     ReducePairTask.eval t = 328350).
Proof.
  intros Hrun Hsub Hops.
  unfold ReducePairTask.run, ReducePairTask.event, ReducePairTask.state in *.
  pose proof (run_consistent _ _ _ _ _ _
                (consistent_new _ ReducePairTask.fold) Hrun) as Hc.
  destruct (reduce_pair_task_closed st _ Hc Hops) as [Harr Hpend].
  assert (∀ l, l ≡ₚ arrived st → int_wrap (product_total l) = 328350)
    as Hsum.
  { intros l Hl. rewrite (product_total_permutation _ _ Hl).
    by rewrite (product_total_permutation _ _ Harr). }
  split; [|split].
  - unfold get. destruct Hc as [_ ->]. rewrite Hsub, Hpend. simpl.
    rewrite pair_fold_total. f_equal. by apply Hsum.
  - intros l Hl. rewrite pair_fold_total. by apply Hsum.
  - intros t Ht. rewrite pair_tree_total. by apply Hsum.
Qed.

(** The schedule of the test with the pairs completed in reverse order. *)
Lemma reduce_pair_task_sum_of_squares_witness :
  ReducePairTask.run ReduceTests.reduce_pair_future_reversed
    = Some ReduceTests.reduce_pair_future_reversed_final ∧
  submitted ReduceTests.reduce_pair_future_reversed_final = true ∧
  operands ReduceTests.reduce_pair_future_reversed_final
    ≡ₚ (λ i, (Some i, Some i)) <$> seqZ 0 100 ∧
  get ReduceTests.reduce_pair_future_reversed_final = Some 328350.
Proof.
  assert (ReducePairTask.run ReduceTests.reduce_pair_future_reversed
          = Some ReduceTests.reduce_pair_future_reversed_final) as Hrun
    by (vm_compute; reflexivity).
  assert (submitted ReduceTests.reduce_pair_future_reversed_final = true)
    as Hsub by (vm_compute; reflexivity).
  assert (operands ReduceTests.reduce_pair_future_reversed_final
          = (λ i, (Some i, Some i)) <$> seqZ 0 100) as Hops
    by (vm_compute; reflexivity).
  assert (operands ReduceTests.reduce_pair_future_reversed_final
          ≡ₚ (λ i, (Some i, Some i)) <$> seqZ 0 100) as Hperm
    by (rewrite Hops; reflexivity).
  split; [exact Hrun | split; [exact Hsub | split; [exact Hperm|]]].
  exact (proj1 (reduce_pair_task_sum_of_squares _ _ Hrun Hsub Hperm)).
Defined.

End ReduceFacts.

(** * Further properties of the evaluator, the wrapper and the reduce
      operation *)

Module ArrayEvalMore.
Import ArrayEval ArrayEvalFacts.
Section ArrayEvalMore.

Context {op_type tile_type eval_type Permutation index : Type}.
Context `{!TileOperation op_type tile_type eval_type}.
Context `{!PermutationOps Permutation index}.

Local Abbreviation Impl := (@ArrayEvalImpl op_type tile_type Permutation index).
Local Abbreviation World := (@world op_type tile_type).

Implicit Types (self : Impl) (w : World).

Lemma run_tasks_taskq self w : taskq (run_tasks self w) = [].
Proof.
  unfold run_tasks.
  assert (∀ q w0, taskq w0 = [] → taskq (foldl (run_task self) w0 q) = [])
    as Hq.
  { induction q as [|t q IH]; intros w0 Hw0; simpl; [done|]. by apply IH. }
  by apply Hq.
Qed.

Lemma filter_probe_split self index_of (l : list size_type) :
  filter (λ i, probe (find (array_ self) (index_of i)) = true) l ++
  filter (λ i, probe (find (array_ self) (index_of i)) = false) l ≡ₚ l.
Proof.
  induction l as [|x l IH]; [done|].
  destruct (probe (find (array_ self) (index_of x))) eqn:Hp.
  - rewrite filter_cons_True by done.
    rewrite (filter_cons_False (λ i, probe _ = false)) by (by rewrite Hp).
    simpl. by rewrite IH.
  - rewrite filter_cons_False by (by rewrite Hp).
    rewrite (filter_cons_True (λ i, probe _ = false)) by done.
    rewrite <- Permutation_middle. by rewrite IH.
Qed.

(** X1.  [eval_tiles] only appends: the tiles and tasks already present
    stay, in place and in order, in front of what is added; what is added
    and the count returned do not depend on the state it starts from; and
    every task it submits has high priority and waits for a handle that was
    not resolved. *)
Theorem eval_tiles_appends self w0 :
  ∃ new_tiles new_tasks n,
    eval_tiles self w0 =
      Some (mkWorld (tiles w0 ++ new_tiles) (taskq w0 ++ new_tasks), n) ∧
    eval_tiles self empty_world = Some (mkWorld new_tiles new_tasks, n) ∧
    Forall (λ t, task_attr t = hipri ∧ probe (task_tile t) = false)
           new_tasks.
Proof.
  eexists _, _, _. rewrite !eval_tiles_spec. split; [done|]. split; [done|].
  apply list.Forall_forall.
  intros t (i & -> & _ & _ & Hp)%elem_of_deferred_tasks. done.
Qed.

(** X2.  Whatever handles were resolved when [eval_tiles] ran, once the
    queued tasks have run the store holds, up to order, exactly one lazy
    tile per local ordinal that is not structurally zero, the queue of the
    evaluator is empty, and if the process map lists no ordinal twice no
    ordinal is set twice. *)
Theorem final_store_is_nonzero_local self :
  ∃ w n,
    eval_tiles self empty_world = Some (w, n) ∧
    tiles (run_tasks self w)
      ≡ₚ (λ i, (i, source_tile self (source_ordinal self) i))
           <$> nonzero_local self ∧
    taskq (run_tasks self w) = [] ∧
    (NoDup (pmap_local self) → NoDup (tiles (run_tasks self w)).*1).
Proof.
  eexists _, _. split; [apply eval_tiles_spec|].
  match goal with |- tiles (run_tasks self ?w) ≡ₚ _ ∧ _ => set (wf := w) end.
  assert (tiles (run_tasks self wf)
          ≡ₚ (λ i, (i, source_tile self (source_ordinal self) i))
               <$> nonzero_local self) as Hperm.
  { subst wf. rewrite run_tasks_tiles. simpl.
    unfold ready_tiles, deferred_tasks.
    rewrite <- list_fmap_compose. unfold nonzero_local.
    rewrite <- (filter_probe_split self (source_ordinal self)
                  (nonzero_of self (pmap_local self))) at 3.
    by rewrite fmap_app. }
  split; [exact Hperm | split; [apply run_tasks_taskq|]].
  intros Hnd. rewrite Hperm, <- list_fmap_compose.
  rewrite (list_fmap_ext _ id (nonzero_local self)) by done.
  rewrite list_fmap_id. unfold nonzero_local, nonzero_of.
  by apply list.NoDup_filter.
Qed.

(** X3.  When every handle of the source array is already resolved,
    [eval_tiles] submits no task at all, and still returns the number of
    local ordinals that are not structurally zero: the count it returns
    counts tiles, not tasks. *)
Theorem all_resolved_no_tasks self :
  (∀ j, probe (find (array_ self) j) = true) →
  Z.of_nat (length (nonzero_local self)) < size_modulus →
  ∃ new_tiles,
    eval_tiles self empty_world =
      Some (mkWorld new_tiles [], Z.of_nat (length (nonzero_local self))) ∧
    new_tiles.*1 = nonzero_local self.
Proof.
  intros Hall Hlt. eexists. rewrite eval_tiles_spec. simpl.
  assert (deferred_tasks self (source_ordinal self) (pmap_local self) = [])
    as ->.
  { apply elem_of_nil_inv. intros t (i & _ & _ & _ & Hp)%elem_of_deferred_tasks.
    by rewrite Hall in Hp. }
  split.
  - do 2 f_equal. case_decide as Hnil.
    + by rewrite Hnil.
    + apply size_wrap_small. lia.
  - unfold ready_tiles. rewrite <- list_fmap_compose.
    rewrite (list_fmap_ext _ id) by done. rewrite list_fmap_id.
    unfold nonzero_local.
    induction (nonzero_of self (pmap_local self)) as [|x l IH]; [done|].
    rewrite filter_cons_True by apply Hall. by rewrite IH.
Qed.

End ArrayEvalMore.

Lemma all_resolved_no_tasks_witness :
  (∀ j, probe (find (array_ MoreExamples.local_evaluator) j) = true) ∧
  Z.of_nat (length (nonzero_local MoreExamples.local_evaluator))
    < size_modulus ∧
  ∃ new_tiles,
    eval_tiles MoreExamples.local_evaluator empty_world =
      Some (mkWorld new_tiles [], 3) ∧
    new_tiles.*1 = [0; 2; 3].
Proof.
  assert (∀ j, probe (find (array_ MoreExamples.local_evaluator) j) = true)
    as Hall by (intros j; reflexivity).
  assert (Z.of_nat (length (nonzero_local MoreExamples.local_evaluator))
          < size_modulus) as Hlt by (vm_compute; reflexivity).
  split; [exact Hall | split; [exact Hlt|]].
  exact (all_resolved_no_tasks MoreExamples.local_evaluator Hall Hlt).
Defined.

End ArrayEvalMore.

Module WrapperMore.
Import Meta UnaryWrapper UnaryWrapperFacts.

(** X4.  [or_reduce] is the disjunction of all its arguments: it is true
    exactly when one of them is, and false exactly when all are. *)
Theorem or_reduce_any (head : bool) (tail : list bool) :
  (or_reduce head tail = true ↔ true ∈ head :: tail) ∧
  (or_reduce head tail = false ↔ Forall (λ b, b = false) (head :: tail)).
Proof.
  revert head. induction tail as [|b tail IH]; intros head.
  - simpl. split.
    + split; [intros ->; left|].
      intros [<-|Hnil]%elem_of_cons; [done|]. by apply elem_of_nil in Hnil.
    + split; [intros ->; by constructor | intros Hall; by inversion Hall].
  - cbn [or_reduce]. destruct (IH b) as [IHt IHf]. split.
    + split.
      * intros [->|Hb%IHt]%orb_true_iff; [left | by right].
      * intros [<-|Hb%IHt]%elem_of_cons; [done|].
        rewrite Hb. apply orb_true_r.
    + split.
      * intros [-> Hb%IHf]%orb_false_iff. by constructor.
      * intros Hall. inversion Hall as [|? ? -> Hb]. subst.
        apply IHf in Hb. by rewrite Hb.
Qed.

Section InvokeChain.
Context {X Y R : Type}.

(** X5.  Two applications chained through [invoke] deliver the value of
    the composition whichever overload runs, and a future stays a future:
    with a plain argument both are applied directly and nothing is queued;
    with a future argument, even a resolved one, two tasks are queued, the
    second waiting for the unresolved handle of the first. *)
Theorem invoke_chain (f : X → Y) (g : Y → R) (a : arg X) (q : task_queue) :
  ∃ r1 q1 r2 q2,
    invoke f a q = (r1, q1) ∧ invoke g r1 q1 = (r2, q2) ∧
    arg_value r2 = g (f (arg_value a)) ∧
    is_future r2 = is_future a ∧
    (is_future a = false → q2 = q) ∧
    (is_future a = true →
       ∃ t1 t2, q2 = q ++ [t1; t2] ∧
                task_ready t1 = arg_ready a ∧ task_ready t2 = false).
Proof.
  destruct a as [v|fut].
  - eexists _, _, _, _. split; [reflexivity|]. split; [reflexivity|].
    split; [done|]. split; [done|]. split; [done | discriminate].
  - eexists _, _, _, _. split; [reflexivity|]. split; [reflexivity|].
    split; [done|]. split; [done|]. split; [discriminate|].
    intros _. eexists _, _. rewrite <- app_assoc. done.
Qed.

End InvokeChain.

Section Overloads.
Context {Op argument_type result_type Permutation index A : Type}.
Context `{!Operator Op argument_type result_type Permutation}.
Context `{!PermutationOps Permutation index}.
Context `{!LazyTile A argument_type} `{!ArrayTile A}.

Local Abbreviation Wrapper := (@UnaryWrapper Op Permutation).

(** X6.  The overloads for lazy tiles are the overloads for evaluated
    tiles applied to the forced tile, and the overload for array tiles is
    [consume] on a tile marked consumable and the plain application on any
    other. *)
Theorem lazy_overloads_force_first (w : Wrapper) (arg : A) (q : task_queue) :
  apply_lazy w arg q = (Val (apply w (cast arg)), q) ∧
  consume_lazy w arg q = (Val (consume w (cast arg)), q) ∧
  apply_array_tile w arg q =
    (if is_consumable arg then consume_lazy w arg q else apply_lazy w arg q).
Proof.
  unfold apply_lazy, consume_lazy, apply_array_tile, apply, consume.
  rewrite !invoke_val.
  destruct (perm_bool (perm_ w)), (is_consumable arg);
    rewrite ?invoke_val, ?invoke2_val; done.
Qed.

(** X7.  With a permutation set, consuming is switched off in every
    overload: [consume] gives what the plain application gives, on
    evaluated tiles, on lazy tiles and on array tiles whatever their mark,
    namely the permuting operator on the (forced) tile. *)
Theorem permutation_disables_consume (w : Wrapper) (t : argument_type)
    (arg : A) (q : task_queue) :
  perm_bool (perm_ w) = true →
  consume w t = apply w t ∧
  apply w t = operator_call_perm (op_ w) t (perm_ w) ∧
  consume_lazy w arg q = apply_lazy w arg q ∧
  apply_array_tile w arg q = apply_lazy w arg q ∧
  apply_lazy w arg q =
    (Val (operator_call_perm (op_ w) (cast arg) (perm_ w)), q).
Proof.
  intros Hperm.
  unfold apply_lazy, consume_lazy, apply_array_tile, apply, consume.
  rewrite !invoke_val, Hperm, !invoke2_val. done.
Qed.

End Overloads.

Lemma permutation_disables_consume_witness :
  perm_bool (perm_ WrapperExample.permuting_wrapper) = true ∧
  consume WrapperExample.permuting_wrapper [WrapperExample.forced]
    = apply WrapperExample.permuting_wrapper [WrapperExample.forced] ∧
  apply_array_tile WrapperExample.permuting_wrapper true []
    = apply_lazy WrapperExample.permuting_wrapper true [].
Proof.
  assert (perm_bool (perm_ WrapperExample.permuting_wrapper) = true)
    as Hperm by reflexivity.
  split; [exact Hperm|].
  destruct (permutation_disables_consume WrapperExample.permuting_wrapper
              [WrapperExample.forced] true [] Hperm)
    as (H1 & _ & _ & H2 & _).
  split; [exact H1 | exact H2].
Defined.

End WrapperMore.

Module ReduceOpFacts.
Import ReduceFacts.

Lemma int_wrap_small z : - 2 ^ 31 ≤ z < 2 ^ 31 → int_wrap z = z.
Proof. intros. unfold int_wrap. rewrite Z.mod_small; lia. Qed.

(** X8.  The combine function of the tests is commutative and
    associative on [int], wrap-around included, and [std::plus<int>] is
    the same function. *)
Theorem reduce_commutative_associative (a b c : Z) :
  ReduceOp.reduce a b = ReduceOp.reduce b a ∧
  ReduceOp.reduce (ReduceOp.reduce a b) c
    = ReduceOp.reduce a (ReduceOp.reduce b c) ∧
  ReduceOp.plus a b = ReduceOp.reduce a b.
Proof.
  unfold ReduceOp.reduce, ReduceOp.plus. split; [|split; [|done]].
  - f_equal. lia.
  - rewrite int_wrap_add_l, int_wrap_add_r. f_equal. lia.
Qed.

(** X9.  The forms of [ReduceOp] agree: combining two pairs with the
    four-argument form is accumulating them one after the other into the
    identity, in either order, and is combining their separate
    accumulations. *)
Theorem reduce_pairs_agree (f1 s1 f2 s2 : Z) :
  ReduceOp.reduce_pairs f1 s1 f2 s2
    = ReduceOp.reduce_pair
        (ReduceOp.reduce_pair ReduceOp.identity f1 s1) f2 s2 ∧
  ReduceOp.reduce_pairs f1 s1 f2 s2
    = ReduceOp.reduce (ReduceOp.reduce_pair ReduceOp.identity f1 s1)
                      (ReduceOp.reduce_pair ReduceOp.identity f2 s2) ∧
  ReduceOp.reduce_pairs f1 s1 f2 s2 = ReduceOp.reduce_pairs f2 s2 f1 s1.
Proof.
  unfold ReduceOp.reduce_pairs, ReduceOp.reduce_pair, ReduceOp.reduce,
    ReduceOp.identity.
  rewrite !Z.add_0_l, !int_wrap_idemp. split; [done | split; [done|]].
  f_equal. lia.
Qed.

(** X10.  Where [int] does not overflow the operation is exact: if a
    product and the sum it is added to are representable, accumulating a
    pair adds the product of the pair to the result. *)
Theorem reduce_pair_exact (result first second : Z) :
  - 2 ^ 31 ≤ first * second < 2 ^ 31 →
  - 2 ^ 31 ≤ result + first * second < 2 ^ 31 →
  ReduceOp.reduce_pair result first second = result + first * second.
Proof.
  intros Hprod Hsum. unfold ReduceOp.reduce_pair.
  by rewrite (int_wrap_small (first * second)), int_wrap_small.
Qed.

Lemma reduce_pair_exact_witness :
  - 2 ^ 31 ≤ 99 * 99 < 2 ^ 31 ∧
  - 2 ^ 31 ≤ 318549 + 99 * 99 < 2 ^ 31 ∧
  ReduceOp.reduce_pair 318549 99 99 = 328350.
Proof.
  assert (- 2 ^ 31 ≤ 99 * 99 < 2 ^ 31) as H1 by lia.
  assert (- 2 ^ 31 ≤ 318549 + 99 * 99 < 2 ^ 31) as H2 by lia.
  split; [exact H1 | split; [exact H2|]].
  exact (reduce_pair_exact 318549 99 99 H1 H2).
Defined.

End ReduceOpFacts.

(** ** vector_op.h: the other kernels *)

Module VectorKernelFacts.
Import VectorOp VectorOpFacts VectorKernels.

(** *** Arrays *)

Section ArrayFacts.
Context {T : Type}.
Implicit Types (a new : list T) (i len : nat).

Lemma take_patch a new i :
  (i ≤ length a)%nat → take i (patch a i new) = take i a.
Proof.
  intros. unfold patch.
  by rewrite take_app_length' by (rewrite length_take; lia).
Qed.

Lemma drop_patch a new i :
  (i ≤ length a)%nat →
  drop (i + length new) (patch a i new) = drop (i + length new) a.
Proof.
  intros. unfold patch. rewrite app_assoc.
  by rewrite drop_app_length' by (rewrite length_app, length_take; lia).
Qed.

Lemma slice_patch_after a new i len :
  (i ≤ length a)%nat →
  slice (patch a i new) (i + length new) len = slice a (i + length new) len.
Proof. intros. unfold slice. by rewrite drop_patch. Qed.

Lemma patch_0_app a new : patch a 0 new = new ++ drop (length new) a.
Proof. reflexivity. Qed.

Lemma slice_S a i len (r : T) :
  a !! i = Some r → slice a i (S len) = r :: slice a (S i) len.
Proof. intros Hr. unfold slice. by rewrite (drop_S _ _ _ Hr). Qed.

Lemma slice_insert_before a i len (v : T) :
  slice (<[i := v]> a) (S i) len = slice a (S i) len.
Proof. unfold slice. by rewrite drop_insert_lt by lia. Qed.

Lemma take_app_slice a i len : take i a ++ slice a i len = take (i + len) a.
Proof. unfold slice. apply take_take_drop. Qed.

End ArrayFacts.

(** *** Element-wise loops without a log *)

Section ElementWise.
Context {R X : Type}.
Variable g : R → X → R.

Lemma silent_loop_spec (count : nat) :
  ∀ (xs : list X) (i : Z) (result : list R) (rp : Z) (args : Z → option X),
  0 ≤ i → 0 ≤ rp →
  rp + i + Z.of_nat count ≤ Z.of_nat (length result) →
  length xs = count →
  (∀ k : nat, (k < count)%nat → args (i + Z.of_nat k) = xs !! k) →
  for_each_block_loop count (silent g) i result rp args [] =
    Some (patch result (Z.to_nat (rp + i))
            (zip_with g (slice result (Z.to_nat (rp + i)) count) xs), []).
Proof.
  induction count as [|count IH]; intros xs i result rp args Hi Hrp Hlen Hxs Hargs.
  - cbn [for_each_block_loop]. unfold slice. rewrite take_0. simpl zip_with.
    by rewrite patch_nil.
  - destruct xs as [|x xs]; [done|]. injection Hxs as Hxs.
    cbn [for_each_block_loop]. unfold apply_at.
    rewrite load_lookup by lia.
    destruct (lookup_lt_is_Some_2 result (Z.to_nat (rp + i))) as [r Hr];
      [lia|].
    rewrite Hr. cbn [mbind option_bind].
    pose proof (Hargs 0%nat ltac:(lia)) as H0.
    rewrite Z.add_0_r in H0. rewrite H0. cbn [lookup list_lookup mbind option_bind].
    change (silent g r x []) with (g r x, @nil (unit * unit)). cbn beta iota.
    rewrite store_insert by lia. cbn [mbind option_bind].
    rewrite (IH xs); [|lia|lia|rewrite length_insert; lia|done|].
    2:{ intros k Hk. specialize (Hargs (S k) ltac:(lia)).
        replace (i + 1 + Z.of_nat k) with (i + Z.of_nat (S k)) by lia.
        exact Hargs. }
    replace (Z.to_nat (rp + (i + 1))) with (S (Z.to_nat (rp + i))) by lia.
    rewrite slice_insert_before, patch_insert_cons by lia.
    by rewrite (slice_S _ _ _ _ Hr).
Qed.

Lemma block_for_each_n_spec (n : nat) (xs : list X) (result : list R)
    (rp : Z) (args : Z → option X) :
  0 ≤ rp → rp + Z.of_nat n ≤ Z.of_nat (length result) →
  length xs = n →
  (∀ k : nat, (k < n)%nat → args (Z.of_nat k) = xs !! k) →
  block_for_each_n g (Z.of_nat n) result rp args =
    Some (patch result (Z.to_nat rp)
            (zip_with g (slice result (Z.to_nat rp) n) xs)).
Proof.
  intros Hrp Hlen Hxs Hargs.
  unfold block_for_each_n, for_each_block_n, array_of. rewrite Nat2Z.id.
  rewrite (silent_loop_spec n xs); [|lia|lia|lia|done|done].
  by rewrite Z.add_0_r.
Qed.

Lemma block_for_each_spec (xs : list X) (result : list R) (rp : Z)
    (args : Z → option X) :
  0 ≤ rp → rp + 8 ≤ Z.of_nat (length result) →
  length xs = 8%nat →
  (∀ k : nat, (k < 8)%nat → args (Z.of_nat k) = xs !! k) →
  block_for_each g result rp args =
    Some (patch result (Z.to_nat rp)
            (zip_with g (slice result (Z.to_nat rp) 8) xs)).
Proof.
  intros Hrp Hlen Hxs Hargs. unfold block_for_each, for_each_block, array_of.
  change (Z.to_nat (TILEDARRAY_LOOP_UNWIND - 1)) with 7%nat.
  rewrite unwind_as_loop by lia. change (7 - Z.of_nat 7) with 0.
  rewrite (silent_loop_spec 8 xs); [|lia|lia|lia|done|done].
  by rewrite Z.add_0_r.
Qed.

(** Extending the finished prefix of an element-wise pass by one more
    stretch. *)
Lemma patch_zip_extend (result : list R) (xs : list X) (m len : nat) :
  (m + len ≤ length result)%nat → (m + len ≤ length xs)%nat →
  patch (patch result 0 (zip_with g (take m result) (take m xs))) m
    (zip_with g
       (slice (patch result 0 (zip_with g (take m result) (take m xs))) m len)
       (slice xs m len))
  = patch result 0 (zip_with g (take (m + len) result) (take (m + len) xs)).
Proof.
  intros Hres Hxs.
  assert (length (zip_with g (take m result) (take m xs)) = m) as Hm
    by (rewrite length_zip_with, !length_take; lia).
  pose proof (slice_patch_after result
                (zip_with g (take m result) (take m xs)) 0 len) as Hs.
  rewrite Hm in Hs. change (0 + m)%nat with m in Hs. rewrite Hs by lia.
  pose proof (patch_patch_adjacent result 0
                (zip_with g (take m result) (take m xs))
                (zip_with g (slice result m len) (slice xs m len)) m Hm) as Hp.
  change (0 + m)%nat with m in Hp.
  rewrite Hp by (rewrite length_zip_with, !length_slice; lia).
  rewrite <- zip_with_app by (rewrite !length_take; lia).
  by rewrite !take_app_slice.
Qed.

End ElementWise.

Section LocalBlocks.
Context {T : Type}.

Lemma zip_with_snd {U} (l : list U) (xs : list T) :
  length l = length xs → zip_with (λ _ x, x) l xs = xs.
Proof.
  revert xs. induction l as [|y l IH]; intros [|x xs] Hlen; try done.
  simpl. f_equal. apply IH. by injection Hlen.
Qed.

Lemma read_slice (a : list T) (p : Z) (n k : nat) :
  0 ≤ p → (k < n)%nat →
  read a p (Z.of_nat k) = slice a (Z.to_nat p) n !! k.
Proof.
  intros. unfold read. rewrite load_lookup, lookup_slice by lia.
  f_equal. lia.
Qed.

Lemma read2_slice {U} (a : list T) (b : list U) (p : Z) (n k : nat) :
  0 ≤ p → (k < n)%nat →
  read2 a b p (Z.of_nat k) =
    zip (slice a (Z.to_nat p) n) (slice b (Z.to_nat p) n) !! k.
Proof.
  intros. unfold read2. rewrite !load_lookup by lia.
  rewrite lookup_zip_with, !lookup_slice by lia.
  by replace (Z.to_nat (p + Z.of_nat k)) with (Z.to_nat p + k)%nat by lia.
Qed.

(** [copy_block(result, arg)] without a log. *)
Lemma block_copy_spec (result a : list T) (rp p : Z) :
  0 ≤ rp → rp + 8 ≤ Z.of_nat (length result) →
  0 ≤ p → p + 8 ≤ Z.of_nat (length a) →
  block_copy result rp (read a p) =
    Some (patch result (Z.to_nat rp) (slice a (Z.to_nat p) 8)).
Proof.
  intros Hrp Hres Hp Ha.
  change (block_copy result rp (read a p))
    with (block_for_each (λ (_ rhs : T), rhs) result rp (read a p)).
  rewrite (block_for_each_spec _ (slice a (Z.to_nat p) 8));
    [|lia|lia|apply length_slice; lia|intros; by apply read_slice].
  by rewrite zip_with_snd by (rewrite !length_slice; lia).
Qed.

(** Loading eight elements into a local block, and storing a local block. *)
Lemma block_load_spec `{!Inhabited T} (a : list T) (p : Z) :
  0 ≤ p → p + 8 ≤ Z.of_nat (length a) →
  block_copy (local_block T) 0 (read a p) = Some (slice a (Z.to_nat p) 8).
Proof.
  intros. rewrite block_copy_spec by (rewrite ?length_local_block; lia).
  change (Z.to_nat 0) with 0%nat.
  by rewrite patch_all by (rewrite length_local_block, length_slice; lia).
Qed.

Lemma block_store_spec (result blk : list T) (rp : Z) :
  0 ≤ rp → rp + 8 ≤ Z.of_nat (length result) → length blk = 8%nat →
  block_copy result rp (read blk 0) = Some (patch result (Z.to_nat rp) blk).
Proof.
  intros. rewrite block_copy_spec by lia.
  change (Z.to_nat 0) with 0%nat. by rewrite slice_all.
Qed.

End LocalBlocks.

(** One unwound block on local arrays. *)
Lemma block_apply_spec {R X} (g : R → X → R) (blk : list R) (xs : list X)
    (args : Z → option X) :
  length blk = 8%nat → length xs = 8%nat →
  (∀ k : nat, (k < 8)%nat → args (Z.of_nat k) = xs !! k) →
  block_for_each g blk 0 args = Some (zip_with g blk xs).
Proof.
  intros Hblk Hxs Hargs.
  rewrite (block_for_each_spec g xs) by (done || lia).
  change (Z.to_nat 0) with 0%nat. rewrite slice_all by done.
  by rewrite patch_all by (rewrite length_zip_with; lia).
Qed.

(** *** The blocked loop *)

Lemma blocked_for_spec {St} (spec : nat → St) (body : Z → St → option St)
    (k : nat) :
  ∀ fuel j : nat,
  (k ≤ fuel)%nat →
  8 * Z.of_nat (j + k) < size_modulus →
  (∀ j' : nat, (j ≤ j' < j + k)%nat →
     body (8 * Z.of_nat j') (spec j') = Some (spec (S j'))) →
  blocked_for fuel 8 (8 * Z.of_nat j) (8 * Z.of_nat (j + k)) body (spec j)
    = Some (8 * Z.of_nat (j + k), spec (j + k)%nat).
Proof.
  induction k as [|k IH]; intros fuel j Hfuel Hmax Hbody.
  - rewrite Nat.add_0_r.
    destruct fuel; cbn [blocked_for]; by rewrite bool_decide_eq_false_2 by lia.
  - destruct fuel as [|fuel]; [lia|]. cbn [blocked_for].
    rewrite bool_decide_eq_true_2 by lia.
    rewrite Hbody by lia. cbn [mbind option_bind].
    assert (size_wrap (8 * Z.of_nat j + 8) = 8 * Z.of_nat (S j)) as ->.
    { unfold size_wrap. rewrite Z.mod_small; lia. }
    replace (j + S k)%nat with (S j + k)%nat by lia.
    apply IH; [lia|lia|]. intros; apply Hbody; lia.
Qed.

Section Kernels.
Context {R X : Type}.

(** An element-wise kernel: if one pass of the blocked loop's body at [i]
    replaces [r[i .. i + 7]] by [g] of these elements and [xs[i .. i + 7]],
    the blocked loop stops at [8 * (n / 8)], and the counted loop that
    follows leaves [g] applied to the first [n] elements. *)
Lemma elementwise_kernel (g : R → X → R) (xs : list X)
    (body : Z → list R → option (list R)) (result : list R)
    (fuel : nat) (n : Z) :
  0 ≤ n < size_modulus →
  n ≤ Z.of_nat (length result) → n ≤ Z.of_nat (length xs) →
  (Z.to_nat (n / 8) ≤ fuel)%nat →
  (∀ (j : nat) (r : list R),
     8 * Z.of_nat j + 8 ≤ n → length r = length result →
     body (8 * Z.of_nat j) r =
       Some (patch r (8 * j) (zip_with g (slice r (8 * j) 8)
                                         (slice xs (8 * j) 8)))) →
  ∃ r1,
    blocked_for fuel 8 0 (Z.land n index_mask) body result
      = Some (8 * (n / 8), r1) ∧
    ∀ args : Z → option X,
      (∀ k : nat, Z.of_nat k < n mod 8 →
         args (Z.of_nat k) = xs !! (Z.to_nat (8 * (n / 8)) + k)%nat) →
      block_for_each_n g (size_wrap (n - 8 * (n / 8))) r1 (8 * (n / 8)) args
        = Some (zip_with g (take (Z.to_nat n) result) (take (Z.to_nat n) xs)
                ++ drop (Z.to_nat n) result).
Proof.
  intros Hn Hres Hxs Hfuel Hbody.
  pose proof (land_index_mask n Hn) as Hland.
  pose proof (Z.mod_pos_bound n 8 ltac:(lia)) as Hmod.
  pose proof (Z.mod_eq n 8 ltac:(lia)) as Hmodeq.
  assert (0 ≤ n / 8) as Hdiv by (apply Z.div_pos; lia).
  set (k := Z.to_nat (n / 8)) in *.
  set (m := Z.to_nat (n mod 8)).
  assert (n / 8 = Z.of_nat k) as Hk by lia.
  assert (n mod 8 = Z.of_nat m) as Hm by lia.
  set (spec := λ j : nat,
         patch result 0 (zip_with g (take (8 * j) result) (take (8 * j) xs))).
  pose proof (blocked_for_spec spec body k fuel 0 Hfuel ltac:(lia)) as Hblocks.
  change (0 + k)%nat with k in Hblocks.
  change (8 * Z.of_nat 0) with 0 in Hblocks.
  assert (spec 0%nat = result) as Hspec0.
  { unfold spec. change (8 * 0)%nat with 0%nat. rewrite !take_0. simpl zip_with.
    apply patch_nil. }
  rewrite Hspec0 in Hblocks.
  exists (spec k). split.
  - rewrite Hland, Hk. apply Hblocks. intros j Hj.
    rewrite Hbody.
    + f_equal. unfold spec.
      rewrite patch_zip_extend by lia.
      by replace (8 * S j)%nat with (8 * j + 8)%nat by lia.
    + lia.
    + unfold spec. apply length_patch.
      rewrite length_zip_with, !length_take. lia.
  - intros args Hargs. rewrite tail_count by done. rewrite Hm.
    assert (Z.to_nat (8 * (n / 8)) = (8 * k)%nat) as Hnx by lia.
    rewrite (block_for_each_n_spec g m (slice xs (8 * k) m)).
    + rewrite Hnx. unfold spec. rewrite patch_zip_extend by lia.
      replace (8 * k + m)%nat with (Z.to_nat n) by lia.
      rewrite patch_0_app. do 3 f_equal.
      rewrite length_zip_with, !length_take. lia.
    + lia.
    + unfold spec. rewrite length_patch
        by (rewrite length_zip_with, !length_take; lia). lia.
    + apply length_slice. lia.
    + intros j Hj. rewrite Hargs by lia.
      rewrite lookup_slice by done. by rewrite Hnx.
Qed.

(** *** Reductions *)

Variable f : R → X → R.

Lemma reduce_loop_spec (count : nat) :
  ∀ (xs : list X) (i : Z) (r : R) (args : Z → option X),
  length xs = count →
  (∀ k : nat, (k < count)%nat → args (i + Z.of_nat k) = xs !! k) →
  reduce_block_loop count f i r args = Some (foldl f r xs).
Proof.
  induction count as [|count IH]; intros xs i r args Hxs Hargs.
  - by destruct xs.
  - destruct xs as [|x xs]; [done|]. injection Hxs as Hxs.
    cbn [reduce_block_loop].
    pose proof (Hargs 0%nat ltac:(lia)) as H0.
    rewrite Z.add_0_r in H0. rewrite H0.
    cbn [lookup list_lookup mbind option_bind foldl].
    apply IH; [done|]. intros k Hk.
    replace (i + 1 + Z.of_nat k) with (i + Z.of_nat (S k)) by lia.
    apply (Hargs (S k)). lia.
Qed.

Lemma reduce_unwind_as_loop (N : nat) (r : R) (args : Z → option X) :
  (N ≤ 7)%nat →
  VectorOpUnwind_reduce N f r args =
    reduce_block_loop (S N) f (7 - Z.of_nat N) r args.
Proof.
  revert r. induction N as [|N IH]; intros r HN.
  - cbn [VectorOpUnwind_reduce reduce_block_loop].
    change (size_wrap (TILEDARRAY_LOOP_UNWIND - Z.of_nat 0 - 1)) with 7.
    change (7 - Z.of_nat 0) with 7.
    by destruct (args 7).
  - cbn [VectorOpUnwind_reduce].
    assert (size_wrap (TILEDARRAY_LOOP_UNWIND - Z.of_nat (S N) - 1)
            = 7 - Z.of_nat (S N)) as ->.
    { rewrite loop_unwind_value. unfold size_wrap, size_modulus.
      rewrite Z.mod_small; lia. }
    remember (S N) as M. cbn [reduce_block_loop]. subst M.
    destruct (args (7 - Z.of_nat (S N))) as [x|]; [|done].
    cbn [mbind option_bind]. rewrite IH by lia.
    by replace (7 - Z.of_nat (S N) + 1) with (7 - Z.of_nat N) by lia.
Qed.

Lemma reduce_block_spec (xs : list X) (r : R) (args : Z → option X) :
  length xs = 8%nat →
  (∀ k : nat, (k < 8)%nat → args (Z.of_nat k) = xs !! k) →
  reduce_block f r args = Some (foldl f r xs).
Proof.
  intros Hxs Hargs. unfold reduce_block.
  change (Z.to_nat (TILEDARRAY_LOOP_UNWIND - 1)) with 7%nat.
  rewrite reduce_unwind_as_loop by lia. change (7 - Z.of_nat 7) with 0.
  by apply reduce_loop_spec.
Qed.

(** A reduction kernel: if one pass of the blocked loop's body at [i] folds
    [xs[i .. i + 7]] into the result, left to right, the kernel folds the
    first [n] elements, left to right. *)
Lemma reduce_kernel (xs : list X) (body : Z → R → option R) (result : R)
    (fuel : nat) (n : Z) :
  0 ≤ n < size_modulus →
  n ≤ Z.of_nat (length xs) →
  (Z.to_nat (n / 8) ≤ fuel)%nat →
  (∀ (j : nat) (r : R),
     8 * Z.of_nat j + 8 ≤ n →
     body (8 * Z.of_nat j) r = Some (foldl f r (slice xs (8 * j) 8))) →
  ∃ r1,
    blocked_for fuel 8 0 (Z.land n index_mask) body result
      = Some (8 * (n / 8), r1) ∧
    ∀ args : Z → option X,
      (∀ k : nat, Z.of_nat k < n mod 8 →
         args (Z.of_nat k) = xs !! (Z.to_nat (8 * (n / 8)) + k)%nat) →
      reduce_block_n f (size_wrap (n - 8 * (n / 8))) r1 args
        = Some (foldl f result (take (Z.to_nat n) xs)).
Proof.
  intros Hn Hxs Hfuel Hbody.
  pose proof (land_index_mask n Hn) as Hland.
  pose proof (Z.mod_pos_bound n 8 ltac:(lia)) as Hmod.
  pose proof (Z.mod_eq n 8 ltac:(lia)) as Hmodeq.
  assert (0 ≤ n / 8) as Hdiv by (apply Z.div_pos; lia).
  set (k := Z.to_nat (n / 8)) in *.
  set (m := Z.to_nat (n mod 8)).
  assert (n / 8 = Z.of_nat k) as Hk by lia.
  assert (n mod 8 = Z.of_nat m) as Hm by lia.
  set (spec := λ j : nat, foldl f result (take (8 * j) xs)).
  pose proof (blocked_for_spec spec body k fuel 0 Hfuel ltac:(lia)) as Hblocks.
  change (0 + k)%nat with k in Hblocks.
  change (8 * Z.of_nat 0) with 0 in Hblocks.
  change (spec 0%nat) with result in Hblocks.
  exists (spec k). split.
  - rewrite Hland, Hk. apply Hblocks. intros j Hj.
    rewrite Hbody by lia. f_equal. unfold spec.
    rewrite <- foldl_app, take_app_slice.
    by replace (8 * S j)%nat with (8 * j + 8)%nat by lia.
  - intros args Hargs. rewrite tail_count by done. rewrite Hm.
    assert (Z.to_nat (8 * (n / 8)) = (8 * k)%nat) as Hnx by lia.
    unfold reduce_block_n. rewrite Nat2Z.id.
    rewrite (reduce_loop_spec m (slice xs (8 * k) m)).
    + unfold spec. rewrite <- foldl_app, take_app_slice.
      by replace (8 * k + m)%nat with (Z.to_nat n) by lia.
    + apply length_slice. lia.
    + intros j Hj. rewrite Z.add_0_l, Hargs by lia.
      rewrite lookup_slice by done. by rewrite Hnx.
Qed.

End Kernels.

(** *** Local blocks in the loop bodies *)

Section Bodies.
Context {R X Y : Type}.

Lemma read_local (blk : list X) (k : nat) :
  read blk 0 (Z.of_nat k) = blk !! k.
Proof. unfold read. rewrite load_lookup by lia. f_equal. lia. Qed.

Lemma read2_local (lb : list X) (rb : list Y) (k : nat) :
  read2 lb rb 0 (Z.of_nat k) = zip lb rb !! k.
Proof.
  unfold read2. rewrite !load_lookup by lia. rewrite lookup_zip_with.
  by replace (Z.to_nat (0 + Z.of_nat k)) with k by lia.
Qed.

Lemma read_tail (a : list X) (p : Z) (k : nat) :
  0 ≤ p → read a p (Z.of_nat k) = a !! (Z.to_nat p + k)%nat.
Proof. intros. unfold read. rewrite load_lookup by lia. f_equal. lia. Qed.

Lemma read2_tail (a : list X) (b : list Y) (p : Z) (k : nat) :
  0 ≤ p → read2 a b p (Z.of_nat k) = zip a b !! (Z.to_nat p + k)%nat.
Proof.
  intros. unfold read2. rewrite !load_lookup by lia. rewrite lookup_zip_with.
  by replace (Z.to_nat (p + Z.of_nat k)) with (Z.to_nat p + k)%nat by lia.
Qed.

Lemma slice_zip (a : list X) (b : list Y) (i len : nat) :
  slice (zip a b) i len = zip (slice a i len) (slice b i len).
Proof. unfold slice. by rewrite zip_with_drop, zip_with_take. Qed.

Lemma zip_with_snd_fmap (h : X → R) (l : list R) (xs : list X) :
  length l = length xs → zip_with (λ _ x, h x) l xs = h <$> xs.
Proof.
  revert xs. induction l as [|y l IH]; intros [|x xs] Hlen; try done.
  csimpl. f_equal. apply IH. by injection Hlen.
Qed.

Lemma zip_with_fst_fmap (h : R → R) (l : list R) (xs : list X) :
  length l = length xs → zip_with (λ r _, h r) l xs = h <$> l.
Proof.
  revert xs. induction l as [|y l IH]; intros [|x xs] Hlen; try done.
  csimpl. f_equal. apply IH. by injection Hlen.
Qed.

Lemma zip_with_const (c : R) (l : list R) (xs : list X) :
  length l = length xs →
  zip_with (λ _ _, c) l xs = replicate (length xs) c.
Proof.
  revert xs. induction l as [|y l IH]; intros [|x xs] Hlen; try done.
  csimpl. f_equal. apply IH. by injection Hlen.
Qed.

Lemma block_apply_read (g : R → X → R) (blk : list R) (ab : list X) :
  length blk = 8%nat → length ab = 8%nat →
  block_for_each g blk 0 (read ab 0) = Some (zip_with g blk ab).
Proof.
  intros. apply block_apply_spec; [done|done|]. intros. apply read_local.
Qed.

Lemma block_apply_read2 (g : R → X * Y → R) (blk : list R) (lb : list X)
    (rb : list Y) :
  length blk = 8%nat → length lb = 8%nat → length rb = 8%nat →
  block_for_each g blk 0 (read2 lb rb 0) = Some (zip_with g blk (zip lb rb)).
Proof.
  intros. apply block_apply_spec; [done|rewrite length_zip_with; lia|].
  intros. apply read2_local.
Qed.

End Bodies.

(** *** The kernels *)

Section KernelTheorems.
Context {Left Right Arg Result : Type}.
Context `{!Inhabited Left, !Inhabited Right, !Inhabited Arg, !Inhabited Result}.

(** X11.  [binary_vector_op(n, arg, result, op)], the in-place form, leaves
    [op(result[i], arg[i])] in [result[i]] for every [i < n] and the
    elements of [result] from [n] on as they were, for any [n], multiple of
    the block width or not; [n / 8] passes of the blocked loop suffice. *)
Theorem binary_vector_op_inplace_correct (op : Result → Arg → Result)
    (fuel : nat) (n : Z) (arg : list Arg) (result : list Result) :
  0 ≤ n < size_modulus →
  n ≤ Z.of_nat (length arg) → n ≤ Z.of_nat (length result) →
  (Z.to_nat (n / 8) ≤ fuel)%nat →
  binary_vector_op_inplace op fuel n arg result =
    Some (zip_with op (take (Z.to_nat n) result) (take (Z.to_nat n) arg)
          ++ drop (Z.to_nat n) result).
Proof.
  intros Hn Harg Hres Hfuel. unfold binary_vector_op_inplace.
  change TILEDARRAY_LOOP_UNWIND with 8.
  match goal with |- context [blocked_for _ _ _ _ ?b _] =>
    destruct (elementwise_kernel op arg b result fuel n Hn Hres Harg Hfuel)
      as (r1 & -> & Htail)
  end.
  - intros j r Hj Hr. cbn beta.
    assert (length (slice arg (8 * j) 8) = 8%nat) by (apply length_slice; lia).
    assert (length (slice r (8 * j) 8) = 8%nat) by (apply length_slice; lia).
    rewrite (block_load_spec arg) by lia. cbn [mbind option_bind].
    rewrite (block_load_spec r) by lia. cbn [mbind option_bind].
    replace (Z.to_nat (8 * Z.of_nat j)) with (8 * j)%nat by lia.
    rewrite block_apply_read by done. cbn [mbind option_bind].
    rewrite block_store_spec by (rewrite ?length_zip_with; lia).
    by replace (Z.to_nat (8 * Z.of_nat j)) with (8 * j)%nat by lia.
  - cbn [mbind option_bind]. apply Htail.
    intros k Hk. apply read_tail.
    pose proof (Z.div_pos n 8). lia.
Qed.

(** X12.  [unary_vector_op(n, result, op)] applies [op] in place to each
    of the first [n] elements and leaves the others as they were, although
    its loop counts by the literal 8 and not by the block width. *)
Theorem unary_vector_op_inplace_correct (op : Result → Result)
    (fuel : nat) (n : Z) (result : list Result) :
  0 ≤ n < size_modulus →
  n ≤ Z.of_nat (length result) →
  (Z.to_nat (n / 8) ≤ fuel)%nat →
  unary_vector_op_inplace op fuel n result =
    Some ((op <$> take (Z.to_nat n) result) ++ drop (Z.to_nat n) result).
Proof.
  intros Hn Hres Hfuel. unfold unary_vector_op_inplace.
  assert (n ≤ Z.of_nat (length (replicate (Z.to_nat n) ()))) as Hxs
    by (rewrite length_replicate; lia).
  match goal with |- context [blocked_for _ _ _ _ ?b _] =>
    destruct (elementwise_kernel (λ r (_ : unit), op r)
                (replicate (Z.to_nat n) ()) b result fuel n Hn Hres Hxs Hfuel)
      as (r1 & -> & Htail)
  end.
  - intros j r Hj Hr. cbn beta.
    assert (length (slice r (8 * j) 8) = 8%nat) by (apply length_slice; lia).
    rewrite (block_load_spec r) by lia. cbn [mbind option_bind].
    replace (Z.to_nat (8 * Z.of_nat j)) with (8 * j)%nat by lia.
    rewrite (block_apply_spec _ _ (slice (replicate (Z.to_nat n) ()) (8 * j) 8));
      [|done|apply length_slice; rewrite length_replicate; lia|].
    2:{ intros k Hk. rewrite lookup_slice by done.
        by rewrite lookup_replicate_2 by lia. }
    cbn [mbind option_bind].
    rewrite block_store_spec by (rewrite ?length_zip_with, ?length_slice,
                                   ?length_replicate; lia).
    by replace (Z.to_nat (8 * Z.of_nat j)) with (8 * j)%nat by lia.
  - cbn [mbind option_bind]. rewrite Htail.
    + rewrite zip_with_fst_fmap; [done|].
      rewrite !length_take, length_replicate. lia.
    + intros k Hk. pose proof (Z.div_pos n 8).
      pose proof (Z.mod_eq n 8). rewrite lookup_replicate_2 by lia. done.
Qed.

(** X13.  [unary_vector_op(n, arg, result, op)] leaves [op(arg[i])] in
    [result[i]] for every [i < n], whatever [result] held, and the elements
    of [result] from [n] on as they were. *)
Theorem unary_vector_op_correct (op : Arg → Result)
    (fuel : nat) (n : Z) (arg : list Arg) (result : list Result) :
  0 ≤ n < size_modulus →
  n ≤ Z.of_nat (length arg) → n ≤ Z.of_nat (length result) →
  (Z.to_nat (n / 8) ≤ fuel)%nat →
  unary_vector_op op fuel n arg result =
    Some ((op <$> take (Z.to_nat n) arg) ++ drop (Z.to_nat n) result).
Proof.
  intros Hn Harg Hres Hfuel. unfold unary_vector_op.
  change TILEDARRAY_LOOP_UNWIND with 8. cbn zeta.
  match goal with |- context [blocked_for _ _ _ _ ?b _] =>
    destruct (elementwise_kernel (λ (_ : Result) a, op a) arg b result fuel n
                Hn Hres Harg Hfuel) as (r1 & -> & Htail)
  end.
  - intros j r Hj Hr. cbn beta.
    assert (length (slice arg (8 * j) 8) = 8%nat) by (apply length_slice; lia).
    assert (length (slice r (8 * j) 8) = 8%nat) by (apply length_slice; lia).
    rewrite (block_load_spec arg) by lia. cbn [mbind option_bind].
    replace (Z.to_nat (8 * Z.of_nat j)) with (8 * j)%nat by lia.
    rewrite block_apply_read by (by rewrite ?length_local_block).
    cbn [mbind option_bind].
    rewrite block_store_spec by (rewrite ?length_zip_with, ?length_local_block; lia).
    replace (Z.to_nat (8 * Z.of_nat j)) with (8 * j)%nat by lia.
    by rewrite !zip_with_snd_fmap by (rewrite ?length_local_block; lia).
  - cbn [mbind option_bind]. rewrite Htail.
    + rewrite zip_with_snd_fmap; [done|]. rewrite !length_take. lia.
    + intros k Hk. apply read_tail. pose proof (Z.div_pos n 8). lia.
Qed.

(** X14.  [copy_vector(n, arg, result)], in its block-wise form, copies the
    first [n] elements of [arg] over those of [result] and leaves the
    elements of [result] from [n] on as they were. *)
Theorem copy_vector_correct (fuel : nat) (n : Z) (arg result : list Result) :
  0 ≤ n < size_modulus →
  n ≤ Z.of_nat (length arg) → n ≤ Z.of_nat (length result) →
  (Z.to_nat (n / 8) ≤ fuel)%nat →
  copy_vector fuel n arg result =
    Some (take (Z.to_nat n) arg ++ drop (Z.to_nat n) result).
Proof.
  intros Hn Harg Hres Hfuel. unfold copy_vector, block_copy_n.
  change TILEDARRAY_LOOP_UNWIND with 8.
  match goal with |- context [blocked_for _ _ _ _ ?b _] =>
    destruct (elementwise_kernel (λ (_ rhs : Result), rhs) arg b result fuel n
                Hn Hres Harg Hfuel) as (r1 & -> & Htail)
  end.
  - intros j r Hj Hr. cbn beta.
    rewrite block_copy_spec by lia.
    replace (Z.to_nat (8 * Z.of_nat j)) with (8 * j)%nat by lia.
    by rewrite zip_with_snd by (rewrite !length_slice; lia).
  - cbn [mbind option_bind]. rewrite Htail.
    + rewrite zip_with_snd; [done|]. rewrite !length_take. lia.
    + intros k Hk. apply read_tail. pose proof (Z.div_pos n 8). lia.
Qed.

(** X15.  [fill_vector(n, arg, result)] sets the first [n] elements of
    [result] to [arg] and leaves the others as they were. *)
Theorem fill_vector_correct (fuel : nat) (n : Z) (arg : Result)
    (result : list Result) :
  0 ≤ n < size_modulus →
  n ≤ Z.of_nat (length result) →
  (Z.to_nat (n / 8) ≤ fuel)%nat →
  fill_vector fuel n arg result =
    Some (replicate (Z.to_nat n) arg ++ drop (Z.to_nat n) result).
Proof.
  intros Hn Hres Hfuel. unfold fill_vector.
  change TILEDARRAY_LOOP_UNWIND with 8. cbn zeta.
  assert (n ≤ Z.of_nat (length (replicate (Z.to_nat n) ()))) as Hxs
    by (rewrite length_replicate; lia).
  match goal with |- context [blocked_for _ _ _ _ ?b _] =>
    destruct (elementwise_kernel (λ (_ : Result) (_ : unit), arg)
                (replicate (Z.to_nat n) ()) b result fuel n Hn Hres Hxs Hfuel)
      as (r1 & -> & Htail)
  end.
  - intros j r Hj Hr. cbn beta.
    rewrite (block_for_each_spec _
               (slice (replicate (Z.to_nat n) ()) (8 * j) 8));
      [|lia|lia|apply length_slice; rewrite length_replicate; lia|].
    2:{ intros k Hk. rewrite lookup_slice by done.
        by rewrite lookup_replicate_2 by lia. }
    by replace (Z.to_nat (8 * Z.of_nat j)) with (8 * j)%nat by lia.
  - cbn [mbind option_bind]. rewrite Htail.
    + rewrite zip_with_const by (rewrite !length_take, length_replicate; lia).
      by rewrite length_take, length_replicate, Nat.min_id.
    + intros k Hk. pose proof (Z.div_pos n 8).
      pose proof (Z.mod_eq n 8). rewrite lookup_replicate_2 by lia. done.
Qed.

(** X16.  [reduce_vector_op(n, left, right, result, op)] folds the pairs
    [(left[i], right[i])], [i < n], into [result] from the lowest index to
    the highest, one application of [op] per index: the order of the
    applications does not depend on the blocking, so [op] need not be
    associative or commutative. *)
Theorem reduce_vector_op_correct (op : Result → Left → Right → Result)
    (fuel : nat) (n : Z) (left : list Left) (right : list Right)
    (result : Result) :
  0 ≤ n < size_modulus →
  n ≤ Z.of_nat (length left) → n ≤ Z.of_nat (length right) →
  (Z.to_nat (n / 8) ≤ fuel)%nat →
  reduce_vector_op op fuel n left right result =
    Some (foldl (λ r lr, op r lr.1 lr.2) result
                (take (Z.to_nat n) (zip left right))).
Proof.
  intros Hn Hleft Hright Hfuel. unfold reduce_vector_op. cbn zeta.
  assert (n ≤ Z.of_nat (length (zip left right))) as Hxs
    by (rewrite length_zip_with; lia).
  match goal with |- context [blocked_for _ _ _ _ ?b _] =>
    destruct (reduce_kernel (λ r (lr : Left * Right), op r lr.1 lr.2)
                (zip left right) b result fuel n Hn Hxs Hfuel)
      as (r1 & -> & Htail)
  end.
  - intros j r Hj. cbn beta.
    assert (length (slice left (8 * j) 8) = 8%nat) by (apply length_slice; lia).
    assert (length (slice right (8 * j) 8) = 8%nat) by (apply length_slice; lia).
    rewrite (block_load_spec left) by lia. cbn [mbind option_bind].
    rewrite (block_load_spec right) by lia. cbn [mbind option_bind].
    replace (Z.to_nat (8 * Z.of_nat j)) with (8 * j)%nat by lia.
    rewrite slice_zip.
    apply reduce_block_spec; [rewrite length_zip_with; lia|].
    intros. apply read2_local.
  - cbn [mbind option_bind]. apply Htail.
    intros k Hk. apply read2_tail. pose proof (Z.div_pos n 8). lia.
Qed.

(** X17.  [reduce_vector_op(n, arg, result, op)] folds [arg[0]], ...,
    [arg[n - 1]] into [result] in index order. *)
Theorem reduce_vector_op1_correct (op : Result → Arg → Result)
    (fuel : nat) (n : Z) (arg : list Arg) (result : Result) :
  0 ≤ n < size_modulus →
  n ≤ Z.of_nat (length arg) →
  (Z.to_nat (n / 8) ≤ fuel)%nat →
  reduce_vector_op1 op fuel n arg result =
    Some (foldl op result (take (Z.to_nat n) arg)).
Proof.
  intros Hn Harg Hfuel. unfold reduce_vector_op1.
  change TILEDARRAY_LOOP_UNWIND with 8.
  match goal with |- context [blocked_for _ _ _ _ ?b _] =>
    destruct (reduce_kernel op arg b result fuel n Hn Harg Hfuel)
      as (r1 & -> & Htail)
  end.
  - intros j r Hj. cbn beta.
    assert (length (slice arg (8 * j) 8) = 8%nat) by (apply length_slice; lia).
    rewrite (block_load_spec arg) by lia. cbn [mbind option_bind].
    replace (Z.to_nat (8 * Z.of_nat j)) with (8 * j)%nat by lia.
    apply reduce_block_spec; [done|]. intros. apply read_local.
  - cbn [mbind option_bind]. apply Htail.
    intros k Hk. apply read_tail. pose proof (Z.div_pos n 8). lia.
Qed.

(** X18.  [reduce_vector_op(n, left, right, result, op)] on a result
    array leaves [op(result[i], left[i], right[i])] in [result[i]] for
    every [i < n] and the elements from [n] on as they were. *)
Theorem reduce_vector_op_array_correct
    (op : Result → Left → Right → Result)
    (fuel : nat) (n : Z) (left : list Left) (right : list Right)
    (result : list Result) :
  0 ≤ n < size_modulus →
  n ≤ Z.of_nat (length left) → n ≤ Z.of_nat (length right) →
  n ≤ Z.of_nat (length result) →
  (Z.to_nat (n / 8) ≤ fuel)%nat →
  reduce_vector_op_array op fuel n left right result =
    Some (zip_with (λ r lr, op r lr.1 lr.2) (take (Z.to_nat n) result)
                   (take (Z.to_nat n) (zip left right))
          ++ drop (Z.to_nat n) result).
Proof.
  intros Hn Hleft Hright Hres Hfuel. unfold reduce_vector_op_array. cbn zeta.
  assert (n ≤ Z.of_nat (length (zip left right))) as Hxs
    by (rewrite length_zip_with; lia).
  match goal with |- context [blocked_for _ _ _ _ ?b _] =>
    destruct (elementwise_kernel (λ r (lr : Left * Right), op r lr.1 lr.2)
                (zip left right) b result fuel n Hn Hres Hxs Hfuel)
      as (r1 & -> & Htail)
  end.
  - intros j r Hj Hr. cbn beta.
    assert (length (slice left (8 * j) 8) = 8%nat) by (apply length_slice; lia).
    assert (length (slice right (8 * j) 8) = 8%nat) by (apply length_slice; lia).
    assert (length (slice r (8 * j) 8) = 8%nat) by (apply length_slice; lia).
    rewrite (block_load_spec r) by lia. cbn [mbind option_bind].
    rewrite (block_load_spec left) by lia. cbn [mbind option_bind].
    rewrite (block_load_spec right) by lia. cbn [mbind option_bind].
    replace (Z.to_nat (8 * Z.of_nat j)) with (8 * j)%nat by lia.
    rewrite block_apply_read2 by done. cbn [mbind option_bind].
    rewrite block_store_spec by (rewrite ?length_zip_with; lia).
    replace (Z.to_nat (8 * Z.of_nat j)) with (8 * j)%nat by lia.
    by rewrite slice_zip.
  - cbn [mbind option_bind]. apply Htail.
    intros k Hk. apply read2_tail. pose proof (Z.div_pos n 8). lia.
Qed.

End KernelTheorems.

(** *** Scatter and gather *)

Section ScatterGather.
Context {T : Type}.
Implicit Types (arg result out src : list T) (stride ap rp op sp : Z).







End ScatterGather.

(** *** The kernels on eleven integers: one block of eight and a tail of
    three, in arrays of twelve *)

Lemma binary_vector_op_inplace_correct_witness :
  0 ≤ 11 < size_modulus ∧
  11 ≤ Z.of_nat (length (seqZ 1 12)) ∧
  11 ≤ Z.of_nat (length (seqZ 20 12)) ∧
  (Z.to_nat (11 / 8) ≤ 1)%nat ∧
  binary_vector_op_inplace Z.sub 1 11 (seqZ 1 12) (seqZ 20 12) =
    Some (zip_with Z.sub (take (Z.to_nat 11) (seqZ 20 12))
                         (take (Z.to_nat 11) (seqZ 1 12))
          ++ drop (Z.to_nat 11) (seqZ 20 12)).
Proof.
  assert (0 ≤ 11 < size_modulus) as Hn by (unfold size_modulus; lia).
  assert (11 ≤ Z.of_nat (length (seqZ 1 12))) as Harg by (vm_compute; discriminate).
  assert (11 ≤ Z.of_nat (length (seqZ 20 12))) as Hres by (vm_compute; discriminate).
  assert (Z.to_nat (11 / 8) ≤ 1)%nat as Hfuel by (vm_compute; lia).
  split; [exact Hn | split; [exact Harg | split; [exact Hres | split; [exact Hfuel|]]]].
  exact (binary_vector_op_inplace_correct Z.sub 1 11 (seqZ 1 12) (seqZ 20 12)
           Hn Harg Hres Hfuel).
Defined.

Lemma unary_vector_op_inplace_correct_witness :
  0 ≤ 11 < size_modulus ∧
  11 ≤ Z.of_nat (length (seqZ 20 12)) ∧
  (Z.to_nat (11 / 8) ≤ 1)%nat ∧
  unary_vector_op_inplace Z.opp 1 11 (seqZ 20 12) =
    Some ((Z.opp <$> take (Z.to_nat 11) (seqZ 20 12))
          ++ drop (Z.to_nat 11) (seqZ 20 12)).
Proof.
  assert (0 ≤ 11 < size_modulus) as Hn by (unfold size_modulus; lia).
  assert (11 ≤ Z.of_nat (length (seqZ 20 12))) as Hres by (vm_compute; discriminate).
  assert (Z.to_nat (11 / 8) ≤ 1)%nat as Hfuel by (vm_compute; lia).
  split; [exact Hn | split; [exact Hres | split; [exact Hfuel|]]].
  exact (unary_vector_op_inplace_correct Z.opp 1 11 (seqZ 20 12) Hn Hres Hfuel).
Defined.

Lemma unary_vector_op_correct_witness :
  0 ≤ 11 < size_modulus ∧
  11 ≤ Z.of_nat (length (seqZ 1 12)) ∧
  11 ≤ Z.of_nat (length (seqZ 20 12)) ∧
  (Z.to_nat (11 / 8) ≤ 1)%nat ∧
  unary_vector_op Z.opp 1 11 (seqZ 1 12) (seqZ 20 12) =
    Some ((Z.opp <$> take (Z.to_nat 11) (seqZ 1 12))
          ++ drop (Z.to_nat 11) (seqZ 20 12)).
Proof.
  assert (0 ≤ 11 < size_modulus) as Hn by (unfold size_modulus; lia).
  assert (11 ≤ Z.of_nat (length (seqZ 1 12))) as Harg by (vm_compute; discriminate).
  assert (11 ≤ Z.of_nat (length (seqZ 20 12))) as Hres by (vm_compute; discriminate).
  assert (Z.to_nat (11 / 8) ≤ 1)%nat as Hfuel by (vm_compute; lia).
  split; [exact Hn | split; [exact Harg | split; [exact Hres | split; [exact Hfuel|]]]].
  exact (unary_vector_op_correct Z.opp 1 11 (seqZ 1 12) (seqZ 20 12)
           Hn Harg Hres Hfuel).
Defined.

Lemma copy_vector_correct_witness :
  0 ≤ 11 < size_modulus ∧
  11 ≤ Z.of_nat (length (seqZ 1 12)) ∧
  11 ≤ Z.of_nat (length (seqZ 20 12)) ∧
  (Z.to_nat (11 / 8) ≤ 1)%nat ∧
  copy_vector 1 11 (seqZ 1 12) (seqZ 20 12) =
    Some (take (Z.to_nat 11) (seqZ 1 12) ++ drop (Z.to_nat 11) (seqZ 20 12)).
Proof.
  assert (0 ≤ 11 < size_modulus) as Hn by (unfold size_modulus; lia).
  assert (11 ≤ Z.of_nat (length (seqZ 1 12))) as Harg by (vm_compute; discriminate).
  assert (11 ≤ Z.of_nat (length (seqZ 20 12))) as Hres by (vm_compute; discriminate).
  assert (Z.to_nat (11 / 8) ≤ 1)%nat as Hfuel by (vm_compute; lia).
  split; [exact Hn | split; [exact Harg | split; [exact Hres | split; [exact Hfuel|]]]].
  exact (copy_vector_correct 1 11 (seqZ 1 12) (seqZ 20 12) Hn Harg Hres Hfuel).
Defined.

Lemma fill_vector_correct_witness :
  0 ≤ 11 < size_modulus ∧
  11 ≤ Z.of_nat (length (seqZ 20 12)) ∧
  (Z.to_nat (11 / 8) ≤ 1)%nat ∧
  fill_vector 1 11 7 (seqZ 20 12) =
    Some (replicate (Z.to_nat 11) 7 ++ drop (Z.to_nat 11) (seqZ 20 12)).
Proof.
  assert (0 ≤ 11 < size_modulus) as Hn by (unfold size_modulus; lia).
  assert (11 ≤ Z.of_nat (length (seqZ 20 12))) as Hres by (vm_compute; discriminate).
  assert (Z.to_nat (11 / 8) ≤ 1)%nat as Hfuel by (vm_compute; lia).
  split; [exact Hn | split; [exact Hres | split; [exact Hfuel|]]].
  exact (fill_vector_correct 1 11 7 (seqZ 20 12) Hn Hres Hfuel).
Defined.

Lemma reduce_vector_op_correct_witness :
  0 ≤ 11 < size_modulus ∧
  11 ≤ Z.of_nat (length (seqZ 1 12)) ∧
  11 ≤ Z.of_nat (length (seqZ 20 12)) ∧
  (Z.to_nat (11 / 8) ≤ 1)%nat ∧
  reduce_vector_op (λ r x y, 2 * r + x * y) 1 11 (seqZ 1 12) (seqZ 20 12) 0 =
    Some (foldl (λ r lr, 2 * r + lr.1 * lr.2) 0
                (take (Z.to_nat 11) (zip (seqZ 1 12) (seqZ 20 12)))).
Proof.
  assert (0 ≤ 11 < size_modulus) as Hn by (unfold size_modulus; lia).
  assert (11 ≤ Z.of_nat (length (seqZ 1 12))) as Hleft by (vm_compute; discriminate).
  assert (11 ≤ Z.of_nat (length (seqZ 20 12))) as Hright by (vm_compute; discriminate).
  assert (Z.to_nat (11 / 8) ≤ 1)%nat as Hfuel by (vm_compute; lia).
  split; [exact Hn | split; [exact Hleft | split; [exact Hright | split; [exact Hfuel|]]]].
  exact (reduce_vector_op_correct (λ r x y, 2 * r + x * y) 1 11
           (seqZ 1 12) (seqZ 20 12) 0 Hn Hleft Hright Hfuel).
Defined.

Lemma reduce_vector_op1_correct_witness :
  0 ≤ 11 < size_modulus ∧
  11 ≤ Z.of_nat (length (seqZ 1 12)) ∧
  (Z.to_nat (11 / 8) ≤ 1)%nat ∧
  reduce_vector_op1 (λ r x, 2 * r + x) 1 11 (seqZ 1 12) 0 =
    Some (foldl (λ r x, 2 * r + x) 0 (take (Z.to_nat 11) (seqZ 1 12))).
Proof.
  assert (0 ≤ 11 < size_modulus) as Hn by (unfold size_modulus; lia).
  assert (11 ≤ Z.of_nat (length (seqZ 1 12))) as Harg by (vm_compute; discriminate).
  assert (Z.to_nat (11 / 8) ≤ 1)%nat as Hfuel by (vm_compute; lia).
  split; [exact Hn | split; [exact Harg | split; [exact Hfuel|]]].
  exact (reduce_vector_op1_correct (λ r x, 2 * r + x) 1 11 (seqZ 1 12) 0
           Hn Harg Hfuel).
Defined.

Lemma reduce_vector_op_array_correct_witness :
  0 ≤ 11 < size_modulus ∧
  11 ≤ Z.of_nat (length (seqZ 1 12)) ∧
  11 ≤ Z.of_nat (length (seqZ 20 12)) ∧
  11 ≤ Z.of_nat (length (seqZ 40 12)) ∧
  (Z.to_nat (11 / 8) ≤ 1)%nat ∧
  reduce_vector_op_array (λ r x y, r + x * y) 1 11 (seqZ 1 12) (seqZ 20 12)
                         (seqZ 40 12) =
    Some (zip_with (λ r lr, r + lr.1 * lr.2) (take (Z.to_nat 11) (seqZ 40 12))
                   (take (Z.to_nat 11) (zip (seqZ 1 12) (seqZ 20 12)))
          ++ drop (Z.to_nat 11) (seqZ 40 12)).
Proof.
  assert (0 ≤ 11 < size_modulus) as Hn by (unfold size_modulus; lia).
  assert (11 ≤ Z.of_nat (length (seqZ 1 12))) as Hleft by (vm_compute; discriminate).
  assert (11 ≤ Z.of_nat (length (seqZ 20 12))) as Hright by (vm_compute; discriminate).
  assert (11 ≤ Z.of_nat (length (seqZ 40 12))) as Hres by (vm_compute; discriminate).
  assert (Z.to_nat (11 / 8) ≤ 1)%nat as Hfuel by (vm_compute; lia).
  split; [exact Hn | split; [exact Hleft | split; [exact Hright
    | split; [exact Hres | split; [exact Hfuel|]]]]].
  exact (reduce_vector_op_array_correct (λ r x y, r + x * y) 1 11
           (seqZ 1 12) (seqZ 20 12) (seqZ 40 12) Hn Hleft Hright Hres Hfuel).
Defined.


End VectorKernelFacts.
